(** * Student job assigner: the assignment engine of [src/App.js]

    A shallow embedding of the state-carrying logic of the React component
    [App]: the Fisher-Yates helper [shuffleArray], the weekly assignment run
    [generateWeeklyAssignments], [resetAssignmentHistory] and the Firestore
    snapshot loader, followed by the properties of the specification that
    were checked against them.

    Conventions of the embedding.
    - Student numbers are integers ([addStudent] admits nothing else),
      modelled as [Z]; objects keyed by student number ([currentAssignments],
      [studentJobHistory]) are finite maps [gmap Z _] (the key of a JavaScript
      object is the decimal string of the number, which is one-to-one on
      integers).
    - Job titles are strings.
    - [Math.random] is an oracle: a stream of values of the half-open unit
      interval, threaded through every function that draws from it.
    - The [setMessage] calls of a handler are collected in order; the text on
      display when the handler returns is obtained by replaying them.  The
      text [saveState] sets afterwards is outside the embedding.
    - [saveState newState] is the one exit of a handler towards persistence:
      a handler returns the state it hands to [saveState], if any. *)

From stdpp Require Import base decidable option numbers list sets gmap strings pretty.
From stdpp Require Import sorting.

Open Scope Z_scope.
Open Scope string_scope.
Open Scope list_scope.

(** ** The random source *)

Module Random.

(** One result of [Math.random()]: the number [numer / (numer + slack + 1)],
    hence any rational of the interval from 0 (included) to 1 (excluded). *)
Record unit_value := { numer : nat; slack : nat }.

(** The oracle: the results of the successive calls to [Math.random]. *)
Definition source := nat → unit_value.

(** The next call: its result and the rest of the stream. *)
Definition Math_random (g : source) : unit_value * source :=
  (g 0%nat, λ k, g (S k)).

(** [Math.floor(r * n)] for a natural number [n], the product being taken
    exactly; the rounding of the floating-point product is not modelled. *)
Definition floor_mul (r : unit_value) (n : nat) : nat :=
  ((numer r * n) `div` (numer r + slack r + 1))%nat.

(** A stream that always answers the same value. *)
Definition constant (r : unit_value) : source := λ _, r.

End Random.

(** ** Arrays *)

Section Arrays.
Context {A : Type}.

(** The destructuring swap
    [[array[i], array[j]] = [array[j], array[i]]]: both cells are read,
    then [array[i]] and [array[j]] are written in that order.  Both
    indexes are inside the array wherever [shuffleArray] swaps (lemma
    [shuffle_indexes_in_range] below); outside that case the model leaves
    the array as it is. *)
Definition swap (array : list A) (i j : nat) : list A :=
  match array !! j, array !! i with
  | Some at_j, Some at_i => <[j := at_i]> (<[i := at_j]> array)
  | _, _ => array
  end.

(** The [while (currentIndex !== 0)] loop of [shuffleArray]; the recursion
    is on [currentIndex], which the loop decrements once per round. *)
Fixpoint shuffle_loop (currentIndex : nat) (array : list A)
    (g : Random.source) : list A * Random.source :=
  match currentIndex with
  | O => (array, g)
  | S decremented =>
      let '(r, g') := Random.Math_random g in
      let randomIndex := Random.floor_mul r currentIndex in
      shuffle_loop decremented (swap array decremented randomIndex) g'
  end.

(** [shuffleArray(array)].  The source shuffles in place and returns its
    argument; every caller passes a fresh copy [[...xs]]. *)
Definition shuffleArray (array : list A) (g : Random.source)
    : list A * Random.source :=
  shuffle_loop (length array) array g.

End Arrays.

(** ** Application state *)

Definition DEFAULT_STUDENTS : list Z := Z.of_nat <$> seq 1 23.

Definition DEFAULT_JOB_TITLES : list string :=
  [ "Line Leader"; "Door Holder"; "Caboose"; "Calendar Helper";
    "Weather Reporter"; "Pencil Monitor"; "Snack Helper"; "Table Washer";
    "Librarian"; "Supply Manager"; "Chair Stacker"; "Plant Waterer";
    "Pet Helper"; "Board Eraser"; "Technology Helper"; "Recycling Monitor";
    "Paper Passer"; "Greeter"; "Messenger"; "Quiet Captain"; "Time Keeper";
    "Flag Holder"; "Classroom Helper" ].

Record AppState := {
  students : list Z;
  jobTitles : list string;
  currentAssignments : gmap Z string;
  remainingStudentsInCycle : list Z;
  studentJobHistory : gmap Z (list string);
  lastAssignmentDate : option string;
  userDefaultStudents : list Z;
  userDefaultJobTitles : list string
}.

(** ** Messages *)

(** The texts the handlers pass to [setMessage]. *)
Inductive notice :=
  | NoText
  | AddStudentsAndJobs
  | MoreJobsThanStudents
  | NewCycleStarted
  | NotEnoughStudents
  | RecentHistoryWarning (studentNum : Z) (job : string)
  | HadBeforeWarning (studentNum : Z) (job : string)
  | CycleComplete
  | HistoryReset.

Definition double_quote : string := String (Ascii.ascii_of_nat 34) EmptyString.

Definition text (n : notice) : string :=
  match n with
  | NoText => EmptyString
  | AddStudentsAndJobs =>
      "Please add students and job titles before assigning jobs."
  | MoreJobsThanStudents =>
      "Warning: More job titles than students. Some jobs may not be assigned."
  | NewCycleStarted =>
      "Starting a new cycle: All students are now available for assignment."
  | NotEnoughStudents =>
      "Not enough unique students to assign all jobs this week. Some jobs were skipped."
  | RecentHistoryWarning studentNum job =>
      "Warning: Student " +:+ pretty studentNum +:+ " was assigned job "
      +:+ double_quote +:+ job +:+ double_quote
      +:+ " even though it's in their recent history, as no better option was available."
  | HadBeforeWarning studentNum job =>
      "Warning: Student " +:+ pretty studentNum +:+ " was assigned job "
      +:+ double_quote +:+ job +:+ double_quote
      +:+ " even though they've had it before, as all eligible students have had this job."
  | CycleComplete =>
      "All students have received a job in this cycle. Next assignment will start a new cycle."
  | HistoryReset => "Student assignment history has been reset."
  end.

(** The two ways a handler calls [setMessage]: with a value, or with the
    updater that appends a text to the previous one, after a space when the
    previous one is not empty. *)
Inductive setMessage_call :=
  | SetTo (n : notice)
  | Append (n : notice).

Definition apply_call (prev : string) (c : setMessage_call) : string :=
  match c with
  | SetTo n => text n
  | Append n =>
      prev +:+ (if decide (prev = EmptyString) then EmptyString else " ")
           +:+ text n
  end.

(** The text a call carries. *)
Definition notice_of (c : setMessage_call) : notice :=
  match c with SetTo n | Append n => n end.

(** The warning of the second [for] loop of the run. *)
Definition second_loop_warning (n : notice) : Prop :=
  match n with RecentHistoryWarning _ _ => True | _ => False end.

(** The text on display once the queued calls have been applied in order. *)
Definition displayed (prev : string) (calls : list setMessage_call) : string :=
  foldl apply_call prev calls.

(** ** The weekly assignment run *)

(** [history.slice(-2)]: the last two entries, or all of them when there are
    fewer. *)
Definition recentHistoryJobs (history : list string) : list string :=
  drop (length history - 2) history.

(** [newStudentJobHistory[studentNum] || []]. *)
Definition history_of (log : gmap Z (list string)) (studentNum : Z)
    : list string :=
  default [] (log !! studentNum).

(** [xs.indexOf(x)]; [None] stands for [-1]. *)
Definition indexOf (xs : list Z) (x : Z) : option nat :=
  fst <$> list_find (λ y, y = x) xs.

(** [i = xs.indexOf(x); if (i > -1) xs.splice(i, 1)]. *)
Definition remove_from_cycle (xs : list Z) (x : Z) : list Z :=
  match indexOf xs x with
  | Some indexInCycle => delete indexInCycle xs
  | None => xs
  end.

(** The variables of [generateWeeklyAssignments] that the body of
    [shuffledJobTitles.forEach] reads and updates, and the calls to
    [setMessage] made so far. *)
Record week := {
  newCurrentAssignments : gmap Z string;
  studentsAssignedThisWeek : gset Z;
  newStudentJobHistory : gmap Z (list string);
  newRemainingStudentsInCycle : list Z;
  calls : list setMessage_call
}.

(** The students of the weekly pool who have no job yet this week. *)
Definition eligibleStudentsForJob (available : list Z) (w : week) : list Z :=
  filter (λ studentNum, studentNum ∉ studentsAssignedThisWeek w) available.

(** First [for] loop: the first eligible student whose last two jobs do not
    include [job]. *)
Definition not_recently (log : gmap Z (list string)) (job : string)
    (eligible : list Z) : option Z :=
  snd <$> list_find (λ studentNum,
                       job ∉ recentHistoryJobs (history_of log studentNum))
                    eligible.

(** Second [for] loop: the first eligible student who never had [job]. *)
Definition never_before (log : gmap Z (list string)) (job : string)
    (eligible : list Z) : option Z :=
  snd <$> list_find (λ studentNum, job ∉ history_of log studentNum) eligible.

(** The choice of [bestStudentCandidate] for one job among a non-empty or
    empty list of eligible students, with the warning the choice emits. *)
Definition choose (log : gmap Z (list string)) (job : string)
    (eligible : list Z) : option (Z * list setMessage_call) :=
  match not_recently log job eligible with
  | Some studentNum => Some (studentNum, [])
  | None =>
      match never_before log job eligible with
      | Some studentNum =>
          Some (studentNum, [Append (RecentHistoryWarning studentNum job)])
      | None =>
          match eligible with
          | first :: _ => Some (first, [Append (HadBeforeWarning first job)])
          | [] => None
          end
      end
  end.

(** [setMessage] called inside the run: the calls join the queue, the other
    variables stay. *)
Definition say (w : week) (said : list setMessage_call) : week :=
  {| newCurrentAssignments := newCurrentAssignments w;
     studentsAssignedThisWeek := studentsAssignedThisWeek w;
     newStudentJobHistory := newStudentJobHistory w;
     newRemainingStudentsInCycle := newRemainingStudentsInCycle w;
     calls := calls w ++ said |}.

(** Lines 354-367, [if (assignedStudent !== null) { ... }]: the assignment is
    recorded, the student marked, the job added to the student's history and
    the student taken out of the cycle queue. *)
Definition record_assignment (w : week) (assignedStudent : Z) (job : string)
    : week :=
  let bestStudentCandidateHistory :=
    history_of (newStudentJobHistory w) assignedStudent in
  {| newCurrentAssignments :=
       <[assignedStudent := job]> (newCurrentAssignments w);
     studentsAssignedThisWeek :=
       {[assignedStudent]} ∪ studentsAssignedThisWeek w;
     newStudentJobHistory :=
       <[assignedStudent := bestStudentCandidateHistory ++ [job]]>
         (newStudentJobHistory w);
     newRemainingStudentsInCycle :=
       remove_from_cycle (newRemainingStudentsInCycle w) assignedStudent;
     calls := calls w |}.

(** The body of [shuffledJobTitles.forEach(job => ...)]. *)
Definition assign_job (available : list Z) (w : week) (job : string)
    : week :=
  let eligible := eligibleStudentsForJob available w in
  if decide (length eligible = 0%nat) then say w [Append NotEnoughStudents]
  else
    match choose (newStudentJobHistory w) job eligible with
    | Some (assignedStudent, warnings) =>
        record_assignment (say w warnings) assignedStudent job
    | None => w
    end.

(** What a handler leaves behind: the state it passed to [saveState] (none
    when it returned before that call), the [setMessage] calls of the handler
    itself, in order, and the random source after its draws.  The calls that
    [saveState] makes in its turn (lines 229, 236 and 239: one text that
    replaces what the handler set, once the save is refused, done or failed)
    are not among them. *)
Record outcome := {
  saved : option AppState;
  messages : list setMessage_call;
  source_after : Random.source
}.

(** Lines 289-297: the copy of the cycle queue, refilled with a shuffle of the
    roster when it is empty. *)
Definition start_cycle (appState : AppState) (said : list setMessage_call)
    (g : Random.source) : list Z * list setMessage_call * Random.source :=
  if decide (length (remainingStudentsInCycle appState) = 0%nat) then
    let '(refilled, g') := shuffleArray (students appState) g in
    (refilled, said ++ [SetTo NewCycleStarted], g')
  else (remainingStudentsInCycle appState, said, g).

(** The variables of the run when the [forEach] starts, and the random
    source left after the three shuffles. *)
Record preparation := {
  availableStudentsForThisWeek : list Z;
  shuffledJobTitles : list string;
  at_entry : week;
  source_left : Random.source
}.

(** Lines 285-303: everything between the test of the rosters and the
    [forEach]. *)
Definition prepare (appState : AppState) (g : Random.source) : preparation :=
  let said0 := [SetTo NoText] in
  let said1 :=
    if decide (length (students appState) < length (jobTitles appState))%nat
    then said0 ++ [SetTo MoreJobsThanStudents] else said0 in
  let '(cycle, said2, g1) := start_cycle appState said1 g in
  let '(pool, g2) := shuffleArray (students appState) g1 in
  let '(job_order, g3) := shuffleArray (jobTitles appState) g2 in
  {| availableStudentsForThisWeek := pool;
     shuffledJobTitles := job_order;
     at_entry :=
       {| newCurrentAssignments := ∅;
          studentsAssignedThisWeek := ∅;
          newStudentJobHistory := studentJobHistory appState;
          newRemainingStudentsInCycle := cycle;
          calls := said2 |};
     source_left := g3 |}.

(** The variables after the whole [forEach]. *)
Definition assign_all (available : list Z) (job_order : list string)
    (w : week) : week :=
  foldl (assign_job available) w job_order.

(** The [forEach] run from the prepared variables. *)
Definition after_loop (p : preparation) : week :=
  assign_all (availableStudentsForThisWeek p) (shuffledJobTitles p) (at_entry p).

(** Lines 370-382: the closing message and the state given to [saveState];
    [now] is [new Date().toISOString()]. *)
Definition finish (appState : AppState) (now : string) (w : week)
    (g : Random.source) : outcome :=
  {| saved := Some
       {| students := students appState;
          jobTitles := jobTitles appState;
          currentAssignments := newCurrentAssignments w;
          remainingStudentsInCycle := newRemainingStudentsInCycle w;
          studentJobHistory := newStudentJobHistory w;
          lastAssignmentDate := Some now;
          userDefaultStudents := userDefaultStudents appState;
          userDefaultJobTitles := userDefaultJobTitles appState |};
     messages :=
       if decide (length (newRemainingStudentsInCycle w) = 0%nat
                  ∧ (0 < length (students appState))%nat)
       then calls w ++ [Append CycleComplete] else calls w;
     source_after := g |}.

Definition generateWeeklyAssignments (appState : AppState) (now : string)
    (g : Random.source) : outcome :=
  if decide (length (students appState) = 0%nat
             ∨ length (jobTitles appState) = 0%nat) then
    {| saved := None;
       messages := [SetTo NoText; SetTo AddStudentsAndJobs];
       source_after := g |}
  else
    let p := prepare appState g in
    finish appState now (after_loop p) (source_left p).

(** The application state after a handler, the save having succeeded. *)
Definition state_after (appState : AppState) (o : outcome) : AppState :=
  default appState (saved o).

(** ** Reset of the assignment history (lines 387-399) *)

Definition resetAssignmentHistory (appState : AppState) (g : Random.source)
    : outcome :=
  let '(reshuffled, g') := shuffleArray (students appState) g in
  {| saved := Some
       {| students := students appState;
          jobTitles := jobTitles appState;
          currentAssignments := ∅;
          remainingStudentsInCycle := reshuffled;
          studentJobHistory := ∅;
          lastAssignmentDate := None;
          userDefaultStudents := userDefaultStudents appState;
          userDefaultJobTitles := userDefaultJobTitles appState |};
     messages := [SetTo HistoryReset];
     source_after := g' |}.

(** ** The snapshot loader (lines 155-168) *)

(** The document read from the store.  A field is [None] when the document
    lacks it or holds [null]; for the date, which the loader does not
    default, [None] is a missing field and [Some None] a stored [null]. *)
Record snapshot := {
  data_students : option (list Z);
  data_jobTitles : option (list string);
  data_currentAssignments : option (gmap Z string);
  data_remainingStudentsInCycle : option (list Z);
  data_studentJobHistory : option (gmap Z (list string));
  data_lastAssignmentDate : option (option string);
  data_userDefaultStudents : option (list Z);
  data_userDefaultJobTitles : option (list string)
}.

(** The updater given to [setAppState] when the state document exists:
    [{...prevState, ...data, students: data.students || DEFAULT_STUDENTS, ...}].
    Nothing is checked and nothing is filtered. *)
Definition load_snapshot (prevState : AppState) (data : snapshot) : AppState :=
  {| students := default DEFAULT_STUDENTS (data_students data);
     jobTitles := default DEFAULT_JOB_TITLES (data_jobTitles data);
     currentAssignments := default ∅ (data_currentAssignments data);
     remainingStudentsInCycle :=
       default [] (data_remainingStudentsInCycle data);
     studentJobHistory := default ∅ (data_studentJobHistory data);
     lastAssignmentDate :=
       default (lastAssignmentDate prevState) (data_lastAssignmentDate data);
     userDefaultStudents :=
       default (userDefaultStudents prevState) (data_userDefaultStudents data);
     userDefaultJobTitles :=
       default (userDefaultJobTitles prevState)
               (data_userDefaultJobTitles data) |}.

(** * Vocabulary of the properties *)

(** Number of cells of a queue that hold a given student. *)
Definition occurrences (studentNum : Z) (queue : list Z) : nat :=
  length (filter (λ y, y = studentNum) queue).

(** The queue the loop starts from. *)
Definition cycle_at_entry (appState : AppState) (g : Random.source) : list Z :=
  newRemainingStudentsInCycle (at_entry (prepare appState g)).

(** The meaning of the two [for] loops: each returns the first eligible
    student, in the order of the list, who passes its test. *)
Definition first_such (P : Z → Prop) (eligible : list Z) (studentNum : Z)
    : Prop :=
  ∃ i : nat, eligible !! i = Some studentNum ∧ P studentNum
    ∧ ∀ (k : nat) other, eligible !! k = Some other → (k < i)%nat → ¬ P other.

(** How [choose] decides, tier by tier.  First tier: [s] is the first
    eligible student without the job among their last two; no warning. *)
Definition tier1 (log : gmap Z (list string)) (job : string)
    (eligible : list Z) (s : Z) (warnings : list setMessage_call)
    : Prop :=
  first_such (λ x, job ∉ recentHistoryJobs (history_of log x)) eligible s
  ∧ warnings = [].

(** Second tier: everybody eligible had the job among their last two, and
    [s] is the first who never had it. *)
Definition tier2 (log : gmap Z (list string)) (job : string)
    (eligible : list Z) (s : Z) (warnings : list setMessage_call)
    : Prop :=
  (∀ e, e ∈ eligible → job ∈ recentHistoryJobs (history_of log e))
  ∧ first_such (λ x, job ∉ history_of log x) eligible s
  ∧ warnings = [Append (RecentHistoryWarning s job)].

(** Third tier: everybody eligible had the job, among their last two even,
    and [s] is the first of them. *)
Definition tier3 (log : gmap Z (list string)) (job : string)
    (eligible : list Z) (s : Z) (warnings : list setMessage_call)
    : Prop :=
  (∀ e, e ∈ eligible → job ∈ recentHistoryJobs (history_of log e))
  ∧ (∀ e, e ∈ eligible → job ∈ history_of log e)
  ∧ head eligible = Some s
  ∧ warnings = [Append (HadBeforeWarning s job)].

(** No job title is the value of two keys of [newCurrentAssignments]. *)
Definition one_student_per_job (assignments : gmap Z string) : Prop :=
  ∀ s1 s2 j, assignments !! s1 = Some j → assignments !! s2 = Some j → s1 = s2.

(** The variables of the run as the [forEach] finds them. *)
Definition first_week (log0 : gmap Z (list string)) (cycle0 : list Z)
    (said : list setMessage_call) : week :=
  {| newCurrentAssignments := ∅;
     studentsAssignedThisWeek := ∅;
     newStudentJobHistory := log0;
     newRemainingStudentsInCycle := cycle0;
     calls := said |}.

(** What every round of the loop keeps true, for a loop started from
    [first_week log0 cycle0 _] with the pool [available], once the jobs
    [handled] have been gone through. *)
Record week_ok (available : list Z) (log0 : gmap Z (list string))
    (cycle0 : list Z) (handled : list string) (w : week) : Prop := {
  ok_dom : ∀ s, s ∈ studentsAssignedThisWeek w
                ↔ is_Some (newCurrentAssignments w !! s);
  ok_pool : ∀ s, s ∈ studentsAssignedThisWeek w → s ∈ available;
  ok_jobs : ∀ s j, newCurrentAssignments w !! s = Some j → j ∈ handled;
  ok_size : (size (studentsAssignedThisWeek w) ≤ length handled)%nat;
  ok_log_kept : ∀ s, s ∉ studentsAssignedThisWeek w →
                     newStudentJobHistory w !! s = log0 !! s;
  ok_log_grown : ∀ s j, newCurrentAssignments w !! s = Some j →
                   newStudentJobHistory w !! s
                   = Some (history_of log0 s ++ [j]);
  ok_cycle : ∃ picked : list Z,
               NoDup picked
               ∧ (∀ s, s ∈ picked ↔ s ∈ studentsAssignedThisWeek w)
               ∧ newRemainingStudentsInCycle w
                 = foldl remove_from_cycle cycle0 picked
}.

(** * Sample states *)

(** The state the component starts with ([useState] at line 58). *)
Definition initial_appState : AppState :=
  {| students := DEFAULT_STUDENTS;
     jobTitles := DEFAULT_JOB_TITLES;
     currentAssignments := ∅;
     remainingStudentsInCycle := [];
     studentJobHistory := ∅;
     lastAssignmentDate := None;
     userDefaultStudents := [];
     userDefaultJobTitles := [] |}.

(** A roster of three students and two jobs, nobody assigned yet, at the
    start of a cycle. *)
Definition three_students : AppState :=
  {| students := [1; 2; 3];
     jobTitles := ["A"; "B"];
     currentAssignments := ∅;
     remainingStudentsInCycle := [1; 2; 3];
     studentJobHistory := ∅;
     lastAssignmentDate := None;
     userDefaultStudents := [];
     userDefaultJobTitles := [] |}.

(** The roster of three students at the end of a cycle: the queue is empty. *)
Definition cycle_over : AppState :=
  {| students := [1; 2; 3];
     jobTitles := ["A"; "B"];
     currentAssignments := ∅;
     remainingStudentsInCycle := [];
     studentJobHistory := ∅;
     lastAssignmentDate := None;
     userDefaultStudents := [];
     userDefaultJobTitles := [] |}.

(** A state with one job title and no student. *)
Definition no_students : AppState :=
  {| students := [];
     jobTitles := ["A"];
     currentAssignments := ∅;
     remainingStudentsInCycle := [];
     studentJobHistory := ∅;
     lastAssignmentDate := None;
     userDefaultStudents := [];
     userDefaultJobTitles := [] |}.

(** One student who held job A, then B, then A, and the one job A. *)
Definition one_student : AppState :=
  {| students := [7];
     jobTitles := ["A"];
     currentAssignments := ∅;
     remainingStudentsInCycle := [7];
     studentJobHistory := {[ 7 := ["A"; "B"; "A"] ]};
     lastAssignmentDate := None;
     userDefaultStudents := [];
     userDefaultJobTitles := [] |}.


(** A stored document whose roster names student 1 twice and whose queue
    and assignments name student 2, who is not on the roster. *)
Definition stale_document : snapshot :=
  {| data_students := Some [1; 1];
     data_jobTitles := Some ["A"];
     data_currentAssignments := Some {[ 2 := "A" ]};
     data_remainingStudentsInCycle := Some [2];
     data_studentJobHistory := None;
     data_lastAssignmentDate := None;
     data_userDefaultStudents := None;
     data_userDefaultJobTitles := None |}.

(** A week in which student 1 had job A among the last two and student 2
    had not, nobody being assigned yet. *)
Definition second_week : week :=
  first_week {[ 1 := ["A"; "B"]; 2 := ["C"] ]} [1; 2] [SetTo NoText].

(** A random source whose every answer is one half. *)
Definition halves : Random.source :=
  Random.constant {| Random.numer := 1; Random.slack := 0 |}.

(** * The other handlers *)

(** ** What they say and what they save *)

(** The texts the roster and reset handlers pass to [setMessage]. *)
Inductive roster_notice :=
  | JobTitleExists
  | StudentNumberExists
  | InvalidStudentNumber
  | AssignmentsCleared
  | AllDataReset
  | StudentsSavedAsDefaults
  | JobTitlesSavedAsDefaults.

Definition roster_text (n : roster_notice) : string :=
  match n with
  | JobTitleExists => "Job title already exists."
  | StudentNumberExists => "Student number already exists."
  | InvalidStudentNumber =>
      "Invalid student number. Must be a positive integer."
  | AssignmentsCleared => "Current week's assignments cleared."
  | AllDataReset =>
      "All data has been reset to defaults (user-defined or original)."
  | StudentsSavedAsDefaults => "Current students saved as new defaults!"
  | JobTitlesSavedAsDefaults => "Current job titles saved as new defaults!"
  end.

(** What a handler without random draws leaves behind: the state it passed
    to [saveState], if any, and the text it set, if any. *)
Record edit := {
  edit_saved : option AppState;
  edit_says : option roster_notice
}.

(** The application state after such a handler, the save having succeeded. *)
Definition edited (appState : AppState) (e : edit) : AppState :=
  default appState (edit_saved e).

(** ** Spreads of the state with one field replaced *)

(** [{...appState, students: updatedStudents}]. *)
Definition with_students (appState : AppState) (updatedStudents : list Z)
    : AppState :=
  {| students := updatedStudents;
     jobTitles := jobTitles appState;
     currentAssignments := currentAssignments appState;
     remainingStudentsInCycle := remainingStudentsInCycle appState;
     studentJobHistory := studentJobHistory appState;
     lastAssignmentDate := lastAssignmentDate appState;
     userDefaultStudents := userDefaultStudents appState;
     userDefaultJobTitles := userDefaultJobTitles appState |}.

(** [{...appState, jobTitles: updatedJobTitles}]. *)
Definition with_jobTitles (appState : AppState)
    (updatedJobTitles : list string) : AppState :=
  {| students := students appState;
     jobTitles := updatedJobTitles;
     currentAssignments := currentAssignments appState;
     remainingStudentsInCycle := remainingStudentsInCycle appState;
     studentJobHistory := studentJobHistory appState;
     lastAssignmentDate := lastAssignmentDate appState;
     userDefaultStudents := userDefaultStudents appState;
     userDefaultJobTitles := userDefaultJobTitles appState |}.

(** ** Job titles (lines 433-447) *)

(** [addJobTitle], for the text [newJobTitle] of the input field.  [trim] is
    [String.prototype.trim]. *)
Definition addJobTitle (trim : string → string) (appState : AppState)
    (newJobTitle : string) : edit :=
  let trimmed := trim newJobTitle in
  if decide (trimmed ≠ EmptyString ∧ trimmed ∉ jobTitles appState) then
    {| edit_saved :=
         Some (with_jobTitles appState (jobTitles appState ++ [trimmed]));
       edit_says := None |}
  else if decide (trimmed ∈ jobTitles appState) then
    {| edit_saved := None; edit_says := Some JobTitleExists |}
  else {| edit_saved := None; edit_says := None |}.

(** [removeJobTitle(jobToRemove)]. *)
Definition removeJobTitle (appState : AppState) (jobToRemove : string) : edit :=
  {| edit_saved :=
       Some (with_jobTitles appState
               (filter (λ job, job ≠ jobToRemove) (jobTitles appState)));
     edit_says := None |}.

(** ** Students (lines 450-481) *)

(** [xs.sort((a, b) => a - b)] on integers.  Whatever the algorithm of the
    engine, the result is the one ascending arrangement of [xs] (lemma
    [ascending_unique] below). *)
Definition sort_ascending (xs : list Z) : list Z := merge_sort Z.le xs.

(** [addStudent], for [num], the result of [parseInt] on the trimmed text of
    the input field; [None] is [NaN]. *)
Definition addStudent (appState : AppState) (num : option Z) : edit :=
  match num with
  | Some n =>
      if decide (0 < n ∧ n ∉ students appState) then
        {| edit_saved :=
             Some (with_students appState
                     (sort_ascending (students appState ++ [n])));
           edit_says := None |}
      else if decide (n ∈ students appState) then
        {| edit_saved := None; edit_says := Some StudentNumberExists |}
      else {| edit_saved := None; edit_says := Some InvalidStudentNumber |}
  | None => {| edit_saved := None; edit_says := Some InvalidStudentNumber |}
  end.

(** [removeStudent(studentToRemove)]: the student leaves the roster, the
    cycle queue, the current assignments and the history. *)
Definition removeStudent (appState : AppState) (studentToRemove : Z) : edit :=
  {| edit_saved := Some
       {| students := filter (λ s, s ≠ studentToRemove) (students appState);
          jobTitles := jobTitles appState;
          currentAssignments :=
            delete studentToRemove (currentAssignments appState);
          remainingStudentsInCycle :=
            filter (λ s, s ≠ studentToRemove)
                   (remainingStudentsInCycle appState);
          studentJobHistory :=
            delete studentToRemove (studentJobHistory appState);
          lastAssignmentDate := lastAssignmentDate appState;
          userDefaultStudents := userDefaultStudents appState;
          userDefaultJobTitles := userDefaultJobTitles appState |};
     edit_says := None |}.

(** ** Clearing and resetting (lines 402-430) *)

(** [clearCurrentAssignments]. *)
Definition clearCurrentAssignments (appState : AppState) : edit :=
  {| edit_saved := Some
       {| students := students appState;
          jobTitles := jobTitles appState;
          currentAssignments := ∅;
          remainingStudentsInCycle := remainingStudentsInCycle appState;
          studentJobHistory := studentJobHistory appState;
          lastAssignmentDate := None;
          userDefaultStudents := userDefaultStudents appState;
          userDefaultJobTitles := userDefaultJobTitles appState |};
     edit_says := Some AssignmentsCleared |}.

(** [xs.length > 0 ? xs : fallback]. *)
Definition or_fallback {A} (xs fallback : list A) : list A :=
  if decide (0 < length xs)%nat then xs else fallback.

(** [resetAll]: the rosters become the user's defaults, or the built-in ones
    where the user saved none. *)
Definition resetAll (appState : AppState) (g : Random.source)
    : edit * Random.source :=
  let studentsToUse :=
    or_fallback (userDefaultStudents appState) DEFAULT_STUDENTS in
  let jobsToUse :=
    or_fallback (userDefaultJobTitles appState) DEFAULT_JOB_TITLES in
  let '(reshuffled, g') := shuffleArray studentsToUse g in
  ({| edit_saved := Some
        {| students := studentsToUse;
           jobTitles := jobsToUse;
           currentAssignments := ∅;
           remainingStudentsInCycle := reshuffled;
           studentJobHistory := ∅;
           lastAssignmentDate := None;
           userDefaultStudents := userDefaultStudents appState;
           userDefaultJobTitles := userDefaultJobTitles appState |};
      edit_says := Some AllDataReset |},
   g').

(** ** User defaults (lines 196-205 and 244-271) *)

Inductive defaults_type := DefaultStudents | DefaultJobs.

(** [saveDefaults(type)], the update of the document having succeeded: the
    state set by the updater of [setAppState], and the message. *)
Definition saveDefaults (appState : AppState) (type : defaults_type)
    : AppState * roster_notice :=
  ({| students := students appState;
      jobTitles := jobTitles appState;
      currentAssignments := currentAssignments appState;
      remainingStudentsInCycle := remainingStudentsInCycle appState;
      studentJobHistory := studentJobHistory appState;
      lastAssignmentDate := lastAssignmentDate appState;
      userDefaultStudents :=
        match type with
        | DefaultStudents => students appState
        | DefaultJobs => userDefaultStudents appState
        end;
      userDefaultJobTitles :=
        match type with
        | DefaultJobs => jobTitles appState
        | DefaultStudents => userDefaultJobTitles appState
        end |},
   match type with
   | DefaultStudents => StudentsSavedAsDefaults
   | DefaultJobs => JobTitlesSavedAsDefaults
   end).

(** The updater run when the defaults document arrives:
    [{...prevState, userDefaultStudents: data.students || [],
      userDefaultJobTitles: data.jobTitles || []}]. *)
Definition load_defaults (prevState : AppState)
    (data_students : option (list Z)) (data_jobTitles : option (list string))
    : AppState :=
  {| students := students prevState;
     jobTitles := jobTitles prevState;
     currentAssignments := currentAssignments prevState;
     remainingStudentsInCycle := remainingStudentsInCycle prevState;
     studentJobHistory := studentJobHistory prevState;
     lastAssignmentDate := lastAssignmentDate prevState;
     userDefaultStudents := default [] data_students;
     userDefaultJobTitles := default [] data_jobTitles |}.

(** ** Documents written to the store *)

(** The document [saveState(newState)] writes with [setDoc]: the state
    itself, every field present. *)
Definition document_of (newState : AppState) : snapshot :=
  {| data_students := Some (students newState);
     data_jobTitles := Some (jobTitles newState);
     data_currentAssignments := Some (currentAssignments newState);
     data_remainingStudentsInCycle := Some (remainingStudentsInCycle newState);
     data_studentJobHistory := Some (studentJobHistory newState);
     data_lastAssignmentDate := Some (lastAssignmentDate newState);
     data_userDefaultStudents := Some (userDefaultStudents newState);
     data_userDefaultJobTitles := Some (userDefaultJobTitles newState) |}.

(** Lines 170-182: the document written when the store holds none yet. *)
Definition first_document (appState : AppState) (g : Random.source)
    : snapshot * Random.source :=
  let initialStudents :=
    or_fallback (userDefaultStudents appState) DEFAULT_STUDENTS in
  let initialJobs :=
    or_fallback (userDefaultJobTitles appState) DEFAULT_JOB_TITLES in
  let '(shuffled, g') := shuffleArray initialStudents g in
  ({| data_students := Some initialStudents;
      data_jobTitles := Some initialJobs;
      data_currentAssignments := Some ∅;
      data_remainingStudentsInCycle := Some shuffled;
      data_studentJobHistory := Some ∅;
      data_lastAssignmentDate := Some None;
      data_userDefaultStudents := None;
      data_userDefaultJobTitles := None |},
   g').

(** ** The assignments on display (lines 85-91 and 483-502) *)

(** The order of [(a, b) => a.studentNum - b.studentNum]. *)
Definition by_studentNum (a b : Z * string) : Prop := (a.1 ≤ b.1)%Z.

#[global] Instance by_studentNum_dec : RelDecision by_studentNum.
Proof. intros a b. unfold by_studentNum. apply _. Defined.

(** The effect that follows [currentAssignments]: its entries as rows, each
    with the number that [parseInt] reads back from the key, sorted by that
    number.  [parseInt_of_key] is [parseInt] after the conversion of the
    number to the key of the object; it gives the number back as long as the
    key is written in plain decimal, and no longer from 10^21 on, where the
    key is in exponent notation and [parseInt] stops at its first digits. *)
Definition assignmentsArray (parseInt_of_key : Z → Z)
    (assignments : gmap Z string) : list (Z * string) :=
  merge_sort by_studentNum
    ((λ entry : Z * string, (parseInt_of_key entry.1, entry.2))
       <$> map_to_list assignments).

(** A conversion that gives the number back below 10^21 and answers 1
    beyond, as [parseInt] does for the key of 10^21. *)
Definition parseInt_of_small_key (studentNum : Z) : Z :=
  if decide (-10 ^ 21 < studentNum < 10 ^ 21) then studentNum else 1.

(** [xs.splice(start, 0, x)]: [x] goes in at [start], or at the end when
    [start] is beyond it. *)
Definition splice_in {A} (xs : list A) (start : nat) (x : A) : list A :=
  take start xs ++ x :: drop start xs.

(** [handleDragEnd], for the rows on display and the two indexes kept in
    [dragItem] and [dragOverItem] ([None] for [null]).  A row is [None]
    where JavaScript has [undefined], which is what reading the array beyond
    its end gives. *)
Definition handleDragEnd {A} (displayAssignments : list (option A))
    (dragItem dragOverItem : option nat) : list (option A) :=
  match dragItem, dragOverItem with
  | Some from, Some to =>
      let draggedItemContent := mjoin (displayAssignments !! from) in
      splice_in (delete from displayAssignments) to draggedItemContent
  | _, _ => displayAssignments
  end.

(** * States the handlers keep *)

(** A roster of students in ascending order, without repetition, of positive
    numbers. *)
Definition roster_ok (xs : list Z) : Prop :=
  StronglySorted Z.lt xs ∧ Forall (λ s, 0 < s) xs.

(** A roster of job titles without repetition and without the empty title. *)
Definition titles_ok (js : list string) : Prop :=
  NoDup js ∧ EmptyString ∉ js.

Record well_formed (appState : AppState) : Prop := {
  wf_students : roster_ok (students appState);
  wf_jobTitles : titles_ok (jobTitles appState);
  wf_cycle_NoDup : NoDup (remainingStudentsInCycle appState);
  wf_cycle_roster :
    ∀ s, s ∈ remainingStudentsInCycle appState → s ∈ students appState;
  wf_assigned_roster :
    ∀ s, is_Some (currentAssignments appState !! s) → s ∈ students appState;
  wf_history_roster :
    ∀ s, is_Some (studentJobHistory appState !! s) → s ∈ students appState;
  wf_one_to_one : one_student_per_job (currentAssignments appState);
  wf_default_students : roster_ok (userDefaultStudents appState);
  wf_default_jobTitles : titles_ok (userDefaultJobTitles appState)
}.

(** What the user can ask for: the buttons of the page, with what the input
    fields hold. *)
Inductive intent :=
  | Assign (now : string)
  | ClearCurrent
  | ResetHistory
  | ResetAll
  | AddJobTitle (newJobTitle : string)
  | RemoveJobTitle (job : string)
  | AddStudent (num : option Z)
  | RemoveStudent (studentNum : Z)
  | SaveDefaults (type : defaults_type).

(** The application state and the random source after the handler of an
    intent, every save having succeeded. *)
Definition perform (trim : string → string) (i : intent)
    (appState : AppState) (g : Random.source) : AppState * Random.source :=
  match i with
  | Assign now =>
      let o := generateWeeklyAssignments appState now g in
      (state_after appState o, source_after o)
  | ClearCurrent => (edited appState (clearCurrentAssignments appState), g)
  | ResetHistory =>
      let o := resetAssignmentHistory appState g in
      (state_after appState o, source_after o)
  | ResetAll => let '(e, g') := resetAll appState g in (edited appState e, g')
  | AddJobTitle newJobTitle =>
      (edited appState (addJobTitle trim appState newJobTitle), g)
  | RemoveJobTitle job => (edited appState (removeJobTitle appState job), g)
  | AddStudent num => (edited appState (addStudent appState num), g)
  | RemoveStudent studentNum =>
      (edited appState (removeStudent appState studentNum), g)
  | SaveDefaults type => ((saveDefaults appState type).1, g)
  end.

(** The states of a session: the component starts from [initial_appState];
    when the store holds no document it writes [first_document] and loads it
    back; then the user acts. *)
Inductive reachable (trim : string → string) : AppState → Prop :=
  | reachable_initial : reachable trim initial_appState
  | reachable_first_load appState g :
      reachable trim appState →
      reachable trim (load_snapshot appState (first_document appState g).1)
  | reachable_perform appState i g :
      reachable trim appState →
      reachable trim (perform trim i appState g).1.

(** * Further vocabulary *)

#[global] Instance notice_eq_dec : EqDecision notice.
Proof. solve_decision. Defined.

#[global] Instance setMessage_call_eq_dec : EqDecision setMessage_call.
Proof. solve_decision. Defined.

(** How many times the run said that it lacked students for a job. *)
Definition skipped_jobs (said : list setMessage_call) : nat :=
  length (filter (λ c, c = Append NotEnoughStudents) said).

(** What of a week decides the choices to come: everything but the cycle
    queue. *)
Definition choice_state (w : week)
    : gmap Z string * gset Z * gmap Z (list string) * list setMessage_call :=
  (newCurrentAssignments w, studentsAssignedThisWeek w,
   newStudentJobHistory w, calls w).

(** A roster of two students and three jobs, both students in the queue. *)
Definition two_students : AppState :=
  {| students := [1; 2];
     jobTitles := ["A"; "B"; "C"];
     currentAssignments := ∅;
     remainingStudentsInCycle := [2; 1];
     studentJobHistory := {[ 1 := ["A"; "B"; "C"] ]};
     lastAssignmentDate := None;
     userDefaultStudents := [];
     userDefaultJobTitles := [] |}.

(** The same roster as [two_students], the other student alone in the
    queue and an old assignment still on display. *)
Definition two_students_later : AppState :=
  {| students := [1; 2];
     jobTitles := ["A"; "B"; "C"];
     currentAssignments := {[ 2 := "B" ]};
     remainingStudentsInCycle := [1];
     studentJobHistory := {[ 1 := ["A"; "B"; "C"] ]};
     lastAssignmentDate := Some "then";
     userDefaultStudents := [];
     userDefaultJobTitles := [] |}.

(** The answer of [Math.random] that makes the loop pick [randomIndex] when
    [currentIndex] is [S decremented]. *)
Definition answer_for (randomIndex decremented : nat) : Random.unit_value :=
  {| Random.numer := randomIndex; Random.slack := decremented - randomIndex |}.

(** * Properties *)

(** ** The shuffle *)

Lemma floor_mul_lt (r : Random.unit_value) (n : nat) :
  (0 < n)%nat → (Random.floor_mul r n < n)%nat.
Proof.
  intros Hn. unfold Random.floor_mul.
  apply Nat.Div0.div_lt_upper_bound. nia.
Qed.

Section ShuffleFacts.
Context {A : Type}.
Implicit Types (array : list A) (g : Random.source).

(** Overwriting one cell with the head of the list while the head takes the
    old content of the cell only reorders the list. *)
Lemma insert_cons_perm array (k : nat) (x y : A) :
  array !! k = Some x → x :: <[k := y]> array ≡ₚ y :: array.
Proof.
  revert k. induction array as [|a array IH]; intros [|k] Hk;
    simplify_eq/=; [apply perm_swap|].
  rewrite (perm_swap a x), (IH k Hk). apply perm_swap.
Qed.

Lemma swap_perm array (i j : nat) : swap array i j ≡ₚ array.
Proof.
  unfold swap.
  destruct (array !! j) as [x|] eqn:Hj; [|done].
  destruct (array !! i) as [y|] eqn:Hi; [|done].
  revert i j Hi Hj.
  induction array as [|a array IH]; intros [|i] [|j] Hi Hj; simplify_eq/=.
  - done.
  - by apply insert_cons_perm.
  - symmetry. rewrite <- (insert_cons_perm array i y x Hi). done.
  - by rewrite IH.
Qed.

Lemma swap_length array (i j : nat) : length (swap array i j) = length array.
Proof.
  unfold swap. destruct (array !! j), (array !! i); try done.
  by rewrite !length_insert.
Qed.

(** Inside the loop both swapped indexes denote cells of the array, so the
    swap never reads or writes outside it. *)
Lemma shuffle_indexes_in_range array (r : Random.unit_value)
    (decremented : nat) :
  (S decremented ≤ length array)%nat →
  is_Some (array !! decremented)
  ∧ is_Some (array !! Random.floor_mul r (S decremented)).
Proof.
  intros Hlen. pose proof (floor_mul_lt r (S decremented)) as Hlt.
  split; apply lookup_lt_is_Some; lia.
Qed.

Lemma shuffle_loop_perm (currentIndex : nat) array g :
  (shuffle_loop currentIndex array g).1 ≡ₚ array.
Proof.
  revert array g. induction currentIndex as [|n IH]; intros array g; [done|].
  simpl. rewrite IH. apply swap_perm.
Qed.

Lemma shuffleArray_perm array g : (shuffleArray array g).1 ≡ₚ array.
Proof. apply shuffle_loop_perm. Qed.

Lemma shuffleArray_length array g :
  length (shuffleArray array g).1 = length array.
Proof. by rewrite shuffleArray_perm. Qed.

Lemma shuffleArray_elem_of array g (x : A) :
  x ∈ (shuffleArray array g).1 ↔ x ∈ array.
Proof. by rewrite shuffleArray_perm. Qed.

Lemma shuffleArray_NoDup array g :
  NoDup array → NoDup (shuffleArray array g).1.
Proof. by rewrite shuffleArray_perm. Qed.

End ShuffleFacts.

(** ** Removal from the cycle queue *)

Section CycleQueueFacts.
Implicit Types (queue : list Z) (x y : Z).

Lemma remove_from_cycle_nil x : remove_from_cycle [] x = [].
Proof. done. Qed.

(** [indexOf] then [splice] drop the first cell equal to [x]. *)
Lemma remove_from_cycle_cons queue x y :
  remove_from_cycle (y :: queue) x =
    if decide (y = x) then queue else y :: remove_from_cycle queue x.
Proof.
  unfold remove_from_cycle, indexOf. simpl.
  case_decide as Hyx; [done|].
  destruct (list_find _ queue) as [[i z]|]; done.
Qed.

Lemma remove_from_cycle_absent queue x :
  x ∉ queue → remove_from_cycle queue x = queue.
Proof.
  induction queue as [|y queue IH]; [done|].
  rewrite not_elem_of_cons, remove_from_cycle_cons. intros [Hne Hnin].
  rewrite decide_False by done. by rewrite IH.
Qed.

Lemma remove_from_cycle_sublist queue x :
  remove_from_cycle queue x `sublist_of` queue.
Proof.
  induction queue as [|y queue IH]; [done|].
  rewrite remove_from_cycle_cons. case_decide.
  - by apply sublist_cons.
  - by apply sublist_skip.
Qed.

Lemma occurrences_cons y queue x :
  occurrences x (y :: queue) =
    if decide (y = x) then S (occurrences x queue) else occurrences x queue.
Proof. unfold occurrences. rewrite filter_cons. by case_decide. Qed.

Lemma occurrences_remove_same queue x :
  occurrences x (remove_from_cycle queue x) = pred (occurrences x queue).
Proof.
  induction queue as [|y queue IH]; [done|].
  rewrite remove_from_cycle_cons, (occurrences_cons y queue).
  case_decide; [done|].
  rewrite occurrences_cons, decide_False by done. done.
Qed.

Lemma occurrences_remove_other queue x y :
  x ≠ y → occurrences y (remove_from_cycle queue x) = occurrences y queue.
Proof.
  intros Hne. induction queue as [|z queue IH]; [done|].
  rewrite remove_from_cycle_cons, (occurrences_cons z queue).
  destruct (decide (z = x)) as [->|Hzx].
  - by rewrite decide_False.
  - rewrite occurrences_cons, IH. done.
Qed.

Lemma occurrences_zero queue x : occurrences x queue = 0%nat ↔ x ∉ queue.
Proof.
  induction queue as [|y queue IH]; [split; [intros _; apply not_elem_of_nil|done]|].
  rewrite occurrences_cons, not_elem_of_cons.
  case_decide as Hyx; [split; [done|]; intros [? _]; congruence|].
  rewrite IH. split; [intros ?; split; [congruence|done]|by intros [_ ?]].
Qed.

(** In a queue without repetition the removal leaves no cell with [x]. *)
Lemma remove_from_cycle_filter queue x :
  NoDup queue → remove_from_cycle queue x = filter (λ y, y ≠ x) queue.
Proof.
  induction queue as [|y queue IH]; [done|].
  rewrite NoDup_cons, remove_from_cycle_cons, filter_cons.
  intros [Hnin Hnd]. destruct (decide (y = x)) as [->|Hne].
  - rewrite decide_False by naive_solver.
    rewrite <- (remove_from_cycle_absent queue x Hnin) at 1. by apply IH.
  - rewrite decide_True by done. by rewrite IH.
Qed.

End CycleQueueFacts.

(** ** The choice of a student for one job *)

Section ChoiceFacts.
Implicit Types (log : gmap Z (list string)) (job : string)
  (eligible : list Z) (studentNum : Z).

Lemma recent_in_history (history : list string) job :
  job ∈ recentHistoryJobs history → job ∈ history.
Proof. intros H. eapply elem_of_sublist; [done|apply sublist_drop]. Qed.

Lemma not_recently_Some log job eligible studentNum :
  not_recently log job eligible = Some studentNum ↔
  first_such (λ s, job ∉ recentHistoryJobs (history_of log s))
             eligible studentNum.
Proof.
  unfold not_recently, first_such. rewrite fmap_Some. split.
  - intros [[i s] [Hfind ->]]. apply list_find_Some in Hfind. by exists i.
  - intros [i Hi]. exists (i, studentNum). by rewrite list_find_Some.
Qed.

Lemma not_recently_None log job eligible :
  not_recently log job eligible = None ↔
  ∀ s, s ∈ eligible → job ∈ recentHistoryJobs (history_of log s).
Proof.
  unfold not_recently. rewrite fmap_None, list_find_None, Forall_forall.
  split; intros H s Hs; specialize (H s Hs).
  - by apply dec_stable.
  - by intros Hn.
Qed.

Lemma never_before_Some log job eligible studentNum :
  never_before log job eligible = Some studentNum ↔
  first_such (λ s, job ∉ history_of log s) eligible studentNum.
Proof.
  unfold never_before, first_such. rewrite fmap_Some. split.
  - intros [[i s] [Hfind ->]]. apply list_find_Some in Hfind. by exists i.
  - intros [i Hi]. exists (i, studentNum). by rewrite list_find_Some.
Qed.

Lemma never_before_None log job eligible :
  never_before log job eligible = None ↔
  ∀ s, s ∈ eligible → job ∈ history_of log s.
Proof.
  unfold never_before. rewrite fmap_None, list_find_None, Forall_forall.
  split; intros H s Hs; specialize (H s Hs).
  - by apply dec_stable.
  - by intros Hn.
Qed.

(** When the first loop finds nobody, so does the second. *)
Lemma second_loop_finds_nobody log job eligible :
  not_recently log job eligible = None →
  never_before log job eligible = None.
Proof.
  rewrite not_recently_None, never_before_None.
  intros H s Hs. by apply recent_in_history, H.
Qed.

(** The three ways [choose] can answer. *)
Lemma choose_cases log job eligible :
  (∃ s, not_recently log job eligible = Some s
        ∧ choose log job eligible = Some (s, []))
  ∨ (not_recently log job eligible = None
     ∧ ∃ s rest, eligible = s :: rest
        ∧ choose log job eligible = Some (s, [Append (HadBeforeWarning s job)]))
  ∨ (eligible = [] ∧ choose log job eligible = None).
Proof.
  unfold choose.
  destruct (not_recently log job eligible) as [s|] eqn:H1; [left; eauto|].
  right. rewrite (second_loop_finds_nobody _ _ _ H1).
  destruct eligible as [|s rest]; [by right|]. left. eauto.
Qed.

Lemma choose_elem_of log job eligible studentNum warnings :
  choose log job eligible = Some (studentNum, warnings) →
  studentNum ∈ eligible.
Proof.
  destruct (choose_cases log job eligible)
    as [(s & H1 & ->)|[(_ & s & rest & -> & ->)|[_ ->]]];
    intros ?; simplify_eq; [|by left].
  apply not_recently_Some in H1 as (i & Hi & _).
  by eapply list_elem_of_lookup_2.
Qed.

Lemma choose_is_Some log job eligible :
  eligible ≠ [] → is_Some (choose log job eligible).
Proof.
  destruct (choose_cases log job eligible)
    as [(s & _ & ->)|[(_ & s & rest & _ & ->)|[-> _]]]; eauto; done.
Qed.

End ChoiceFacts.

(** ** One job, then all of them *)

(** Reads the fields of a week built by [say], [record_assignment] or
    [first_week], and nothing else. *)
Ltac week_fields :=
  cbn [record_assignment say newCurrentAssignments studentsAssignedThisWeek
       newStudentJobHistory newRemainingStudentsInCycle calls].

Section LoopFacts.
Variable available : list Z.
Implicit Types (w : week) (job : string) (studentNum : Z).

(** A job is either skipped, for want of an eligible student, or given to
    the student [choose] returns. *)
Lemma assign_job_cases w job :
  (eligibleStudentsForJob available w = []
   ∧ assign_job available w job = say w [Append NotEnoughStudents])
  ∨ (∃ s warnings,
       eligibleStudentsForJob available w ≠ []
       ∧ choose (newStudentJobHistory w) job
                (eligibleStudentsForJob available w) = Some (s, warnings)
       ∧ assign_job available w job
         = record_assignment (say w warnings) s job).
Proof.
  unfold assign_job.
  destruct (eligibleStudentsForJob available w) as [|e eligible] eqn:Hel.
  - left. by rewrite decide_True.
  - right. rewrite decide_False by done.
    destruct (choose_is_Some (newStudentJobHistory w) job (e :: eligible))
      as [[s warnings] Hch]; [done|].
    exists s, warnings. by rewrite Hch.
Qed.

Lemma elem_of_eligible w studentNum :
  studentNum ∈ eligibleStudentsForJob available w ↔
  studentNum ∈ available ∧ studentNum ∉ studentsAssignedThisWeek w.
Proof.
  unfold eligibleStudentsForJob. rewrite list_elem_of_filter. tauto.
Qed.

(** Induction along the [forEach]: a property of the jobs already handled
    and of the variables, true at the start and kept by one round, is true
    at the end.  A round knows where in the list of jobs it stands. *)
Lemma assign_all_ind (jobs : list string) (w0 : week)
    (P : list string → week → Prop) :
  P [] w0 →
  (∀ handled job rest,
     jobs = handled ++ job :: rest →
     P handled (assign_all available handled w0) →
     P (handled ++ [job])
       (assign_job available (assign_all available handled w0) job)) →
  P jobs (assign_all available jobs w0).
Proof.
  intros Hstart Hround.
  assert (∀ handled rest, jobs = handled ++ rest →
            P handled (assign_all available handled w0)) as Hall.
  { induction handled as [|job handled IH] using rev_ind; intros rest Heq;
      [done|].
    unfold assign_all. rewrite foldl_snoc.
    rewrite <- app_assoc in Heq. eauto. }
  apply (Hall jobs []). by rewrite app_nil_r.
Qed.

Lemma assign_all_snoc handled job w0 :
  assign_all available (handled ++ [job]) w0
  = assign_job available (assign_all available handled w0) job.
Proof. unfold assign_all. by rewrite foldl_snoc. Qed.

End LoopFacts.

(** ** What every round of the loop keeps true *)

Section WeekInvariant.
Variable available : list Z.
Variable log0 : gmap Z (list string).
Variable cycle0 : list Z.
Implicit Types (w : week) (job : string) (handled : list string).

Lemma week_ok_start said :
  week_ok available log0 cycle0 [] (first_week log0 cycle0 said).
Proof.
  split; cbn [first_week newCurrentAssignments studentsAssignedThisWeek
              newStudentJobHistory newRemainingStudentsInCycle].
  - intros s. rewrite lookup_empty, elem_of_empty.
    split; [done|]. by intros [? ?].
  - intros s Hs. by apply elem_of_empty in Hs.
  - intros s j Hs. by rewrite lookup_empty in Hs.
  - by rewrite size_empty.
  - done.
  - intros s j Hs. by rewrite lookup_empty in Hs.
  - exists []. split; [constructor|]. split; [|done].
    intros s. by rewrite elem_of_nil, elem_of_empty.
Qed.

Lemma week_ok_say handled w said :
  week_ok available log0 cycle0 handled w →
  week_ok available log0 cycle0 handled (say w said).
Proof. intros [? ? ? ? ? ? ?]. by split. Qed.

Lemma week_ok_skip handled w job :
  week_ok available log0 cycle0 handled w →
  week_ok available log0 cycle0 (handled ++ [job]) w.
Proof.
  intros [? ? Hjobs Hsize ? ? ?]. split; try done.
  - intros s j Hs. apply elem_of_app. left. by eapply Hjobs.
  - rewrite length_app. simpl. lia.
Qed.

Lemma week_ok_record handled w job s :
  week_ok available log0 cycle0 handled w →
  s ∈ eligibleStudentsForJob available w →
  week_ok available log0 cycle0 (handled ++ [job]) (record_assignment w s job).
Proof.
  intros [Hdom Hpool Hjobs Hsize Hkept Hgrown (picked & Hnd & Hpicked & Hcycle)].
  rewrite elem_of_eligible. intros [Hav Hfresh].
  split; cbn [record_assignment newCurrentAssignments studentsAssignedThisWeek
              newStudentJobHistory newRemainingStudentsInCycle].
  - intros s'. rewrite elem_of_union, elem_of_singleton, lookup_insert.
    case_decide; subst; [split; eauto|]. rewrite Hdom. split; [|by right].
    intros [?|?]; [congruence|done].
  - intros s'. rewrite elem_of_union, elem_of_singleton.
    intros [->|?]; eauto.
  - intros s' j. rewrite lookup_insert, elem_of_app, list_elem_of_singleton.
    case_decide; [intros; simplify_eq; by right|]. left. by eapply Hjobs.
  - rewrite size_union by (by apply disjoint_singleton_l).
    rewrite size_singleton, length_app. simpl. lia.
  - intros s'. rewrite elem_of_union, elem_of_singleton. intros Hs'.
    rewrite lookup_insert_ne by (intros ->; tauto). apply Hkept. tauto.
  - intros s' j. rewrite !lookup_insert.
    case_decide; subst.
    + intros ?; simplify_eq. unfold history_of. by rewrite Hkept.
    + apply Hgrown.
  - exists (picked ++ [s]). split_and!.
    + apply NoDup_app. split_and!; [done| |apply NoDup_singleton].
      intros s'. rewrite Hpicked, list_elem_of_singleton. by intros ? ->.
    + intros s'. rewrite elem_of_app, list_elem_of_singleton, Hpicked,
        elem_of_union, elem_of_singleton. tauto.
    + by rewrite foldl_snoc, Hcycle.
Qed.

Lemma week_ok_assign_job handled w job :
  week_ok available log0 cycle0 handled w →
  week_ok available log0 cycle0 (handled ++ [job])
          (assign_job available w job).
Proof.
  intros Hok.
  destruct (assign_job_cases available w job)
    as [[_ ->]|(s & warnings & _ & Hch & ->)].
  - by apply week_ok_say, week_ok_skip.
  - apply week_ok_record; [by apply week_ok_say|].
    by apply choose_elem_of in Hch.
Qed.

Lemma week_ok_assign_all jobs said :
  week_ok available log0 cycle0 jobs
          (assign_all available jobs (first_week log0 cycle0 said)).
Proof.
  apply (assign_all_ind available jobs (first_week log0 cycle0 said)
         (week_ok available log0 cycle0)).
  - apply week_ok_start.
  - intros handled job rest _. apply week_ok_assign_job.
Qed.

End WeekInvariant.

(** ** Before and after the loop *)

Section RunFacts.
Implicit Types (appState : AppState) (g : Random.source) (now : string).

Lemma start_cycle_empty appState said g :
  remainingStudentsInCycle appState = [] →
  start_cycle appState said g
  = ((shuffleArray (students appState) g).1,
     said ++ [SetTo NewCycleStarted],
     (shuffleArray (students appState) g).2).
Proof.
  intros Hq. unfold start_cycle. rewrite Hq, decide_True by done.
  by destruct (shuffleArray (students appState) g).
Qed.

Lemma start_cycle_nonempty appState said g :
  remainingStudentsInCycle appState ≠ [] →
  start_cycle appState said g = (remainingStudentsInCycle appState, said, g).
Proof.
  intros Hq. unfold start_cycle. rewrite decide_False; [done|].
  by destruct (remainingStudentsInCycle appState).
Qed.

(** The prepared variables: a pool and a job order that permute the
    rosters, no assignment yet, the stored history, and the cycle queue of
    [start_cycle]. *)
Lemma prepare_shape appState g :
  ∃ said,
    at_entry (prepare appState g)
    = first_week (studentJobHistory appState) (cycle_at_entry appState g) said
    ∧ availableStudentsForThisWeek (prepare appState g) ≡ₚ students appState
    ∧ shuffledJobTitles (prepare appState g) ≡ₚ jobTitles appState
    ∧ Forall (λ c, ¬ second_loop_warning (notice_of c)) said.
Proof.
  unfold cycle_at_entry, prepare.
  set (said1 := if decide _ then _ else _).
  assert (Forall (λ c, ¬ second_loop_warning (notice_of c)) said1) as Hsaid1.
  { unfold said1. case_decide; repeat constructor; by intros []. }
  destruct (start_cycle appState said1 g) as [[cycle said2] g1] eqn:Hsc.
  assert (Forall (λ c, ¬ second_loop_warning (notice_of c)) said2) as Hsaid2.
  { revert Hsc. unfold start_cycle. case_decide.
    - destruct (shuffleArray _ g). intros ?; simplify_eq.
      apply Forall_app. split; [done|]. repeat constructor. by intros [].
    - by intros ?; simplify_eq. }
  pose proof (shuffleArray_perm (students appState) g1) as Hpool.
  destruct (shuffleArray (students appState) g1) as [pool g2].
  pose proof (shuffleArray_perm (jobTitles appState) g2) as Hjobs.
  destruct (shuffleArray (jobTitles appState) g2) as [job_order g3].
  exists said2. simpl. by split_and!.
Qed.

Lemma cycle_at_entry_eq appState g :
  cycle_at_entry appState g
  = if decide (remainingStudentsInCycle appState = [])
    then (shuffleArray (students appState) g).1
    else remainingStudentsInCycle appState.
Proof.
  unfold cycle_at_entry, prepare.
  set (said1 := if decide _ then _ else _). clearbody said1.
  case_decide as Hq.
  - rewrite (start_cycle_empty _ _ _ Hq).
    by do 2 destruct (shuffleArray _ _).
  - rewrite (start_cycle_nonempty _ _ _ Hq).
    by do 2 destruct (shuffleArray _ _).
Qed.

Lemma generate_runs appState now g :
  students appState ≠ [] → jobTitles appState ≠ [] →
  generateWeeklyAssignments appState now g
  = finish appState now (after_loop (prepare appState g))
           (source_left (prepare appState g)).
Proof.
  intros Hs Hj. unfold generateWeeklyAssignments.
  rewrite decide_False; [done|].
  intros [H|H]; apply length_zero_iff_nil in H; done.
Qed.

Lemma generate_stops appState now g :
  students appState = [] ∨ jobTitles appState = [] →
  generateWeeklyAssignments appState now g
  = {| saved := None;
       messages := [SetTo NoText; SetTo AddStudentsAndJobs];
       source_after := g |}.
Proof.
  intros H. unfold generateWeeklyAssignments. rewrite decide_True; [done|].
  destruct H as [-> | ->]; auto.
Qed.

(** The invariant of the loop, at the end of the loop of a run. *)
Lemma week_ok_after_loop appState g :
  week_ok (availableStudentsForThisWeek (prepare appState g))
          (studentJobHistory appState) (cycle_at_entry appState g)
          (shuffledJobTitles (prepare appState g))
          (after_loop (prepare appState g)).
Proof.
  destruct (prepare_shape appState g) as (said & Hentry & _).
  unfold after_loop. rewrite Hentry. apply week_ok_assign_all.
Qed.

End RunFacts.

(** * The claims of the specification *)

(** ** Shuffling *)

(** Claim C10.  For every input array, [shuffleArray] returns a permutation
    of it: same length, same elements with the same multiplicities.  Hence
    the queue a run refills from an empty one, and the queue a reset of the
    history stores, hold exactly the students of the roster, each as often as
    the roster does, so once each when the roster has no repetition. *)
Theorem shuffleArray_permutes :
  (∀ (A : Type) (array : list A) (g : Random.source),
     length (shuffleArray array g).1 = length array
     ∧ (shuffleArray array g).1 ≡ₚ array)
  ∧ (∀ appState g,
       remainingStudentsInCycle appState = [] →
       cycle_at_entry appState g ≡ₚ students appState
       ∧ (NoDup (students appState) → NoDup (cycle_at_entry appState g)))
  ∧ (∀ appState g st',
       saved (resetAssignmentHistory appState g) = Some st' →
       remainingStudentsInCycle st' ≡ₚ students appState
       ∧ (NoDup (students appState) → NoDup (remainingStudentsInCycle st'))).
Proof.
  split_and!.
  - intros A array g. split; [apply shuffleArray_length|apply shuffleArray_perm].
  - intros appState g Hq. rewrite cycle_at_entry_eq, decide_True by done.
    split; [apply shuffleArray_perm|apply shuffleArray_NoDup].
  - intros appState g st'. unfold resetAssignmentHistory.
    pose proof (shuffleArray_perm (students appState) g) as Hperm.
    destruct (shuffleArray (students appState) g) as [reshuffled g'].
    simpl in *. intros ?; simplify_eq/=. split; [done|]. by rewrite Hperm.
Qed.

Lemma shuffleArray_permutes_witness :
  remainingStudentsInCycle cycle_over = []
  ∧ cycle_at_entry cycle_over halves ≡ₚ students cycle_over
  ∧ (NoDup (students cycle_over) → NoDup (cycle_at_entry cycle_over halves)).
Proof.
  split; [reflexivity|].
  exact (proj1 (proj2 shuffleArray_permutes) cycle_over halves eq_refl).
Defined.

Example shuffle_of_five :
  (shuffleArray [1; 2; 3; 4; 5] halves).1 = [1; 4; 2; 5; 3].
Proof. reflexivity. Qed.

(** ** Empty rosters *)

(** Claim C6.  When the list of students or the list of job titles is empty,
    [generateWeeklyAssignments] hands no state to [saveState], so the
    application state stays what it was; it draws nothing from the random
    source (no refill, no shuffle) and the only text it leaves on display,
    whatever was shown before, asks for students and job titles. *)
Theorem empty_roster_is_refused appState now g shown :
  students appState = [] ∨ jobTitles appState = [] →
  let o := generateWeeklyAssignments appState now g in
  saved o = None
  ∧ state_after appState o = appState
  ∧ source_after o = g
  ∧ messages o = [SetTo NoText; SetTo AddStudentsAndJobs]
  ∧ displayed shown (messages o)
    = "Please add students and job titles before assigning jobs.".
Proof.
  intros Hempty. simpl. by rewrite (generate_stops _ _ _ Hempty).
Qed.

Lemma empty_roster_is_refused_witness :
  (students no_students = [] ∨ jobTitles no_students = [])
  ∧ let o := generateWeeklyAssignments no_students "now" halves in
    saved o = None
    ∧ state_after no_students o = no_students
    ∧ source_after o = halves
    ∧ messages o = [SetTo NoText; SetTo AddStudentsAndJobs]
    ∧ displayed "State saved successfully!" (messages o)
      = "Please add students and job titles before assigning jobs.".
Proof.
  assert (students no_students = [] ∨ jobTitles no_students = []) as Hempty.
  { left. reflexivity. }
  split; [exact Hempty|].
  exact (empty_roster_is_refused no_students "now" halves
           "State saved successfully!" Hempty).
Defined.

(** ** Reset of the history *)

(** Claim C7.  [resetAssignmentHistory] always hands [saveState] a state with
    no current assignment, no history and no date, whose cycle queue is a
    permutation of the roster of students, and whose two rosters are those
    of the state it started from. *)
Theorem resetAssignmentHistory_resets appState g :
  ∃ st', saved (resetAssignmentHistory appState g) = Some st'
    ∧ currentAssignments st' = ∅
    ∧ studentJobHistory st' = ∅
    ∧ lastAssignmentDate st' = None
    ∧ remainingStudentsInCycle st' ≡ₚ students appState
    ∧ students st' = students appState
    ∧ jobTitles st' = jobTitles appState.
Proof.
  unfold resetAssignmentHistory.
  pose proof (shuffleArray_perm (students appState) g) as Hperm.
  destruct (shuffleArray (students appState) g) as [reshuffled g'].
  eexists. split; [done|]. by split_and!.
Qed.

(** ** One job per student, one student per job *)

Section Matching.
Variable available : list Z.
Variable log0 : gmap Z (list string).
Variable cycle0 : list Z.
Variable said : list setMessage_call.

Local Abbreviation run jobs :=
  (assign_all available jobs (first_week log0 cycle0 said)).

Lemma first_week_unassigned (s : Z) :
  newCurrentAssignments (first_week log0 cycle0 said) !! s = None.
Proof. apply lookup_empty. Qed.

Lemma one_student_per_job_loop (jobs : list string) :
  NoDup jobs → one_student_per_job (newCurrentAssignments (run jobs)).
Proof.
  intros Hnd.
  apply (assign_all_ind available jobs (first_week log0 cycle0 said)
           (λ _ w, one_student_per_job (newCurrentAssignments w))).
  { intros s1 s2 j H. by rewrite first_week_unassigned in H. }
  intros handled job rest -> IH.
  pose proof (week_ok_assign_all available log0 cycle0 handled said) as Hok.
  destruct (assign_job_cases available (run handled) job)
    as [[_ ->]|(s & warnings & _ & Hch & ->)]; [done|].
  apply choose_elem_of, elem_of_eligible in Hch as [_ Hfresh].
  assert (∀ s', newCurrentAssignments (run handled) !! s' ≠ Some job) as Hnew.
  { intros s' Hs'. apply (ok_jobs _ _ _ _ _ Hok) in Hs'.
    apply NoDup_app in Hnd as (_ & Hsep & _).
    apply (Hsep job Hs'). by left. }
  intros s1 s2 j. simpl. rewrite !lookup_insert.
  repeat case_decide; subst; intros; simplify_eq; try done.
  - by destruct (Hnew s2).
  - by destruct (Hnew s1).
  - by eapply IH.
Qed.

(** While fewer jobs have been handled than the pool has students, an
    eligible student remains. *)
Lemma eligible_remains handled w :
  week_ok available log0 cycle0 handled w →
  NoDup available → (length handled < length available)%nat →
  eligibleStudentsForJob available w ≠ [].
Proof.
  intros Hok Hnd Hlt Hnil.
  assert (list_to_set available ⊆ studentsAssignedThisWeek w) as Hsub.
  { intros s Hs. apply elem_of_list_to_set in Hs.
    destruct (decide (s ∈ studentsAssignedThisWeek w)) as [|Hn]; [done|].
    destruct (filter_nil_not_elem_of _ _ s Hnil Hn Hs). }
  apply subseteq_size in Hsub. rewrite size_list_to_set in Hsub by done.
  pose proof (ok_size _ _ _ _ _ Hok). lia.
Qed.

(** With at least as many students as jobs, every job handled so far is
    held by somebody. *)
Lemma every_job_held (jobs : list string) :
  NoDup available → (length jobs ≤ length available)%nat →
  ∀ j, j ∈ jobs → ∃ s, newCurrentAssignments (run jobs) !! s = Some j.
Proof.
  intros Hnd Hle.
  apply (assign_all_ind available jobs (first_week log0 cycle0 said)
           (λ handled w, ∀ j, j ∈ handled →
              ∃ s, newCurrentAssignments w !! s = Some j)).
  { intros j Hj. by apply elem_of_nil in Hj. }
  intros handled job rest -> IH.
  pose proof (week_ok_assign_all available log0 cycle0 handled said) as Hok.
  destruct (assign_job_cases available (run handled) job)
    as [[Hnil _]|(s & warnings & _ & Hch & ->)].
  { destruct (eligible_remains handled _ Hok Hnd); [|done].
    rewrite length_app in Hle. simpl in Hle. lia. }
  apply choose_elem_of, elem_of_eligible in Hch as [_ Hfresh].
  intros j. rewrite elem_of_app, list_elem_of_singleton. simpl.
  intros [Hj| ->].
  - destruct (IH j Hj) as [s' Hs']. exists s'.
    rewrite lookup_insert_ne; [done|]. intros ->.
    apply Hfresh, (ok_dom _ _ _ _ _ Hok). eauto.
  - exists s. by rewrite lookup_insert_eq.
Qed.

End Matching.

(** The history of a run grows by one job for an assigned student and stays
    as it was for the others. *)
Lemma history_after_loop appState g (s : Z) :
  let w := after_loop (prepare appState g) in
  match newCurrentAssignments w !! s with
  | Some j => newStudentJobHistory w !! s
              = Some (history_of (studentJobHistory appState) s ++ [j])
  | None => newStudentJobHistory w !! s = studentJobHistory appState !! s
  end.
Proof.
  simpl. pose proof (week_ok_after_loop appState g) as Hok.
  destruct (newCurrentAssignments _ !! s) as [j|] eqn:Hs.
  - by apply (ok_log_grown _ _ _ _ _ Hok).
  - apply (ok_log_kept _ _ _ _ _ Hok). rewrite (ok_dom _ _ _ _ _ Hok), Hs.
    by intros [? ?].
Qed.

Lemma after_loop_one_to_one appState g :
  NoDup (jobTitles appState) →
  one_student_per_job (newCurrentAssignments (after_loop (prepare appState g))).
Proof.
  intros Hnd.
  destruct (prepare_shape appState g) as (said & Hentry & _ & Hjobs & _).
  unfold after_loop. rewrite Hentry.
  apply one_student_per_job_loop. by rewrite Hjobs.
Qed.

(** Claim C1.  For every state whose list of job titles has no duplicates, a
    run of [generateWeeklyAssignments] that reaches [saveState] saves a map of
    assignments in which no job title is the job of two students and no
    student has two jobs; indeed the history of no student grows by more than
    one job in the run.  The run stops before [saveState] only when a roster is
    empty. *)
Theorem assignments_are_one_to_one appState now g :
  NoDup (jobTitles appState) →
  match saved (generateWeeklyAssignments appState now g) with
  | Some st' =>
      one_student_per_job (currentAssignments st')
      ∧ (∀ s j1 j2, currentAssignments st' !! s = Some j1 →
                    currentAssignments st' !! s = Some j2 → j1 = j2)
      ∧ (∀ s, length (history_of (studentJobHistory st') s)
              ≤ S (length (history_of (studentJobHistory appState) s)))%nat
  | None => students appState = [] ∨ jobTitles appState = []
  end.
Proof.
  intros Hnd.
  destruct (students appState) as [|s0 ss] eqn:Hs;
    [rewrite generate_stops by (by left); by left|].
  destruct (jobTitles appState) as [|j0 js] eqn:Hj;
    [rewrite generate_stops by (by right); by right|].
  rewrite generate_runs by (by rewrite ?Hs, ?Hj). simpl.
  split_and!.
  - apply after_loop_one_to_one. by rewrite Hj.
  - congruence.
  - intros s. pose proof (history_after_loop appState g s) as Hh. simpl in Hh.
    unfold history_of at 1.
    destruct (newCurrentAssignments _ !! s); rewrite Hh.
    + simpl. rewrite length_app. simpl. lia.
    + fold (history_of (studentJobHistory appState) s). lia.
Qed.

Lemma assignments_are_one_to_one_witness :
  NoDup (jobTitles three_students)
  ∧ match saved (generateWeeklyAssignments three_students "now" halves) with
    | Some st' =>
        one_student_per_job (currentAssignments st')
        ∧ (∀ s j1 j2, currentAssignments st' !! s = Some j1 →
                      currentAssignments st' !! s = Some j2 → j1 = j2)
        ∧ (∀ s, length (history_of (studentJobHistory st') s)
                ≤ S (length (history_of (studentJobHistory three_students) s)))%nat
    | None => students three_students = [] ∨ jobTitles three_students = []
    end.
Proof.
  assert (NoDup (jobTitles three_students)) as Hnd.
  { apply (bool_decide_unpack _). vm_compute. exact I. }
  split; [exact Hnd|].
  exact (assignments_are_one_to_one three_students "now" halves Hnd).
Defined.

(** Claim C2.  For every state without duplicate students or job titles and
    with at least as many students as job titles, the map of assignments a run
    saves holds every job title as the job of exactly one student.  (A run
    that saves nothing had no job title to assign.) *)
Theorem every_job_is_assigned appState now g :
  NoDup (students appState) → NoDup (jobTitles appState) →
  (length (jobTitles appState) ≤ length (students appState))%nat →
  match saved (generateWeeklyAssignments appState now g) with
  | Some st' =>
      ∀ j, j ∈ jobTitles appState →
        ∃ s, currentAssignments st' !! s = Some j
             ∧ ∀ s', currentAssignments st' !! s' = Some j → s' = s
  | None => jobTitles appState = []
  end.
Proof.
  intros Hnds Hndj Hle.
  pose proof (after_loop_one_to_one appState g Hndj) as Hone.
  destruct (jobTitles appState) as [|j0 js] eqn:Hj;
    [by rewrite generate_stops by (by right)|].
  destruct (students appState) as [|s0 ss] eqn:Hs; [simpl in Hle; lia|].
  rewrite generate_runs by (by rewrite ?Hs, ?Hj). simpl.
  destruct (prepare_shape appState g) as (said & Hentry & Hpool & Hjobs & _).
  intros j Hin.
  destruct (every_job_held (availableStudentsForThisWeek (prepare appState g))
              (studentJobHistory appState) (cycle_at_entry appState g) said
              (shuffledJobTitles (prepare appState g))) with (j := j)
    as [s Hsj].
  - by rewrite Hpool, Hs.
  - by rewrite Hpool, Hjobs, Hs, Hj.
  - by rewrite Hjobs, Hj.
  - exists s. unfold after_loop. rewrite Hentry. split; [done|].
    intros s' Hs'. unfold after_loop in Hone. rewrite Hentry in Hone.
    by eapply Hone.
Qed.

Lemma every_job_is_assigned_witness :
  NoDup (students three_students) ∧ NoDup (jobTitles three_students)
  ∧ (length (jobTitles three_students) ≤ length (students three_students))%nat
  ∧ match saved (generateWeeklyAssignments three_students "now" halves) with
    | Some st' =>
        ∀ j, j ∈ jobTitles three_students →
          ∃ s, currentAssignments st' !! s = Some j
               ∧ ∀ s', currentAssignments st' !! s' = Some j → s' = s
    | None => jobTitles three_students = []
    end.
Proof.
  assert (NoDup (students three_students)) as Hs.
  { apply (bool_decide_unpack _). vm_compute. exact I. }
  assert (NoDup (jobTitles three_students)) as Hj.
  { apply (bool_decide_unpack _). vm_compute. exact I. }
  assert (length (jobTitles three_students)
          ≤ length (students three_students))%nat as Hle.
  { simpl. lia. }
  split_and!; [exact Hs|exact Hj|exact Hle|].
  exact (every_job_is_assigned three_students "now" halves Hs Hj Hle).
Defined.

(** ** The order of the tiers *)

Section Tiers.
Implicit Types (log : gmap Z (list string)) (job : string)
  (eligible : list Z) (w : week).

Lemma choose_tiers log job eligible s warnings :
  choose log job eligible = Some (s, warnings) →
  tier1 log job eligible s warnings
  ∨ tier2 log job eligible s warnings
  ∨ tier3 log job eligible s warnings.
Proof.
  unfold choose, tier1, tier2, tier3.
  destruct (not_recently log job eligible) as [s1|] eqn:H1.
  { intros ?; simplify_eq. left. by rewrite <- not_recently_Some. }
  rewrite not_recently_None in H1.
  destruct (never_before log job eligible) as [s2|] eqn:H2.
  { intros ?; simplify_eq. right; left. by rewrite <- never_before_Some. }
  rewrite never_before_None in H2.
  destruct eligible as [|e rest]; intros ?; simplify_eq. by right; right.
Qed.


End Tiers.

Section TiersAlongTheLoop.
Variable available : list Z.
Variable log0 : gmap Z (list string).
Variable cycle0 : list Z.
Variable said : list setMessage_call.

Local Abbreviation run jobs :=
  (assign_all available jobs (first_week log0 cycle0 said)).


(** The warning of the second loop never joins the queue of messages. *)
Lemma no_second_loop_warning_loop (jobs : list string) :
  Forall (λ c, ¬ second_loop_warning (notice_of c)) said →
  Forall (λ c, ¬ second_loop_warning (notice_of c)) (calls (run jobs)).
Proof.
  intros Hsaid.
  apply (assign_all_ind available jobs (first_week log0 cycle0 said)
           (λ _ w, Forall (λ c, ¬ second_loop_warning (notice_of c)) (calls w)));
    [done|].
  intros handled job rest _ IH.
  destruct (assign_job_cases available (run handled) job)
    as [[_ ->]|(s & warnings & _ & Hch & ->)]; simpl.
  - apply Forall_app. split; [done|]. repeat constructor. by intros [].
  - apply Forall_app. split; [done|].
    destruct (choose_cases (newStudentJobHistory (run handled)) job
                (eligibleStudentsForJob available (run handled)))
      as [(s1 & _ & Hch1)|[(_ & s1 & tl & _ & Hch1)|[_ Hch1]]];
      rewrite Hch in Hch1; simplify_eq; repeat constructor. by intros [].
Qed.

End TiersAlongTheLoop.

(** Claim C9.  The second [for] loop of the run can never succeed: a job
    found among the last two of a history is in that history, so when the
    first loop finds no student the second finds none either.  Hence every
    student chosen is chosen by the first loop, without warning, or is the
    first eligible student, with the warning of the last resort; and no run
    ever queues the warning of the second loop. *)
Theorem second_loop_is_dead :
  (∀ log job eligible,
     not_recently log job eligible = None →
     never_before log job eligible = None)
  ∧ (∀ log job eligible s warnings,
       choose log job eligible = Some (s, warnings) →
       ¬ tier2 log job eligible s warnings
       ∧ (tier1 log job eligible s warnings
          ∨ tier3 log job eligible s warnings))
  ∧ (∀ appState now g c,
       c ∈ messages (generateWeeklyAssignments appState now g) →
       ¬ second_loop_warning (notice_of c)).
Proof.
  split_and!.
  - apply second_loop_finds_nobody.
  - intros log job eligible s warnings Hch. split.
    + intros (Hall & (i & Hi & Hnever & _) & _).
      apply Hnever, recent_in_history, Hall.
      by eapply list_elem_of_lookup_2.
    + destruct (choose_tiers _ _ _ _ _ Hch) as [?|[H2|?]]; [by left| |by right].
      destruct H2 as (Hall & (i & Hi & Hnever & _) & _).
      destruct Hnever. apply recent_in_history, Hall.
      by eapply list_elem_of_lookup_2.
  - intros appState now g c. unfold generateWeeklyAssignments.
    case_decide.
    { simpl. rewrite !elem_of_cons, elem_of_nil.
      intros [->|[->|[]]]; by intros []. }
    destruct (prepare_shape appState g) as (said & Hentry & _ & _ & Hsaid).
    pose proof (no_second_loop_warning_loop
                  (availableStudentsForThisWeek (prepare appState g))
                  (studentJobHistory appState) (cycle_at_entry appState g)
                  said (shuffledJobTitles (prepare appState g)) Hsaid) as Hloop.
    rewrite <- Hentry in Hloop. fold (after_loop (prepare appState g)) in Hloop.
    rewrite Forall_forall in Hloop.
    simpl. case_decide; [|apply Hloop].
    rewrite elem_of_app, list_elem_of_singleton.
    intros [?| ->]; [by apply Hloop|by intros []].
Qed.

Lemma second_loop_is_dead_witness :
  choose {[ 1 := ["B"; "A"] ]} "A" [1]
  = Some (1, [Append (HadBeforeWarning 1 "A")])
  ∧ ¬ tier2 {[ 1 := ["B"; "A"] ]} "A" [1] 1 [Append (HadBeforeWarning 1 "A")]
  ∧ (tier1 {[ 1 := ["B"; "A"] ]} "A" [1] 1 [Append (HadBeforeWarning 1 "A")]
     ∨ tier3 {[ 1 := ["B"; "A"] ]} "A" [1] 1 [Append (HadBeforeWarning 1 "A")]).
Proof.
  assert (choose {[ 1 := ["B"; "A"] ]} "A" [1]
          = Some (1, [Append (HadBeforeWarning 1 "A")])) as Hch.
  { vm_compute. reflexivity. }
  split; [exact Hch|].
  exact (proj1 (proj2 second_loop_is_dead) _ _ _ _ _ Hch).
Defined.

Example only_student_repeats :
  let o := generateWeeklyAssignments one_student "now" halves in
  (map_to_list ∘ currentAssignments <$> saved o) = Some [(7, "A")]
  ∧ (map_to_list ∘ studentJobHistory <$> saved o)
    = Some [(7, ["A"; "B"; "A"; "A"])]
  ∧ (remainingStudentsInCycle <$> saved o) = Some []
  ∧ messages o = [SetTo NoText; Append (HadBeforeWarning 7 "A");
                  Append CycleComplete].
Proof. by vm_compute. Qed.




Example second_week_gives_A_to_2 :
  newCurrentAssignments (assign_job [1; 2] second_week "A") !! 2 = Some "A"
  ∧ calls (assign_job [1; 2] second_week "A") = [SetTo NoText].
Proof. by vm_compute. Qed.

(** ** The cycle queue along a run *)

Section CycleAlongTheLoop.
Implicit Types (queue picked : list Z).

Lemma removals_sublist queue picked :
  foldl remove_from_cycle queue picked `sublist_of` queue.
Proof.
  revert queue. induction picked as [|x picked IH]; intros queue; [done|].
  simpl. etrans; [apply IH|apply remove_from_cycle_sublist].
Qed.

Lemma occurrences_removals_other queue picked (s : Z) :
  s ∉ picked →
  occurrences s (foldl remove_from_cycle queue picked) = occurrences s queue.
Proof.
  revert queue. induction picked as [|x picked IH]; intros queue; [done|].
  rewrite not_elem_of_cons. intros [Hne Hnin]. simpl.
  rewrite IH by done. by apply occurrences_remove_other.
Qed.

Lemma occurrences_removals_picked queue picked (s : Z) :
  NoDup picked → s ∈ picked →
  occurrences s (foldl remove_from_cycle queue picked)
  = pred (occurrences s queue).
Proof.
  revert queue. induction picked as [|x picked IH]; intros queue Hnd Hin.
  { by apply elem_of_nil in Hin. }
  apply NoDup_cons in Hnd as [Hx Hnd]. simpl.
  destruct (decide (s = x)) as [->|Hne].
  - rewrite occurrences_removals_other by done.
    apply occurrences_remove_same.
  - apply elem_of_cons in Hin as [?|Hin]; [done|].
    rewrite IH by done. by rewrite occurrences_remove_other.
Qed.

Lemma filter_keeps_all (P : Z → Prop) `{!∀ x, Decision (P x)} queue :
  (∀ x, x ∈ queue → P x) → filter P queue = queue.
Proof.
  induction queue as [|y queue IH]; intros Hall; [done|].
  rewrite filter_cons_True by (apply Hall; by left).
  rewrite IH; [done|]. intros x Hx. apply Hall. by right.
Qed.

Lemma removals_filter queue picked :
  NoDup queue →
  foldl remove_from_cycle queue picked = filter (λ y, y ∉ picked) queue.
Proof.
  revert queue. induction picked as [|x picked IH]; intros queue Hnd; simpl.
  - symmetry. apply filter_keeps_all. intros y _. apply not_elem_of_nil.
  - rewrite IH by (eapply sublist_NoDup;
                   [exact Hnd|apply remove_from_cycle_sublist]).
    rewrite remove_from_cycle_filter, list_filter_filter by done.
    apply list_filter_iff. intros y. rewrite not_elem_of_cons. tauto.
Qed.

End CycleAlongTheLoop.

(** The cycle queue saved by a run, against the queue the loop started
    from. *)
Lemma cycle_after_loop appState g :
  let w := after_loop (prepare appState g) in
  let queue := cycle_at_entry appState g in
  newRemainingStudentsInCycle w `sublist_of` queue
  ∧ (∀ s, occurrences s (newRemainingStudentsInCycle w)
          = match newCurrentAssignments w !! s with
            | Some _ => pred (occurrences s queue)
            | None => occurrences s queue
            end)
  ∧ (NoDup queue →
     newRemainingStudentsInCycle w
     = filter (λ s, newCurrentAssignments w !! s = None) queue).
Proof.
  simpl.
  destruct (week_ok_after_loop appState g)
    as [Hdom _ _ _ _ _ (picked & Hnd & Hpicked & ->)].
  assert (∀ s, s ∉ picked
               ↔ newCurrentAssignments (after_loop (prepare appState g)) !! s
                 = None) as Hnone.
  { intros s. rewrite Hpicked, Hdom, eq_None_not_Some. done. }
  split_and!.
  - apply removals_sublist.
  - intros s. destruct (newCurrentAssignments _ !! s) as [j|] eqn:Hs.
    + apply occurrences_removals_picked; [done|].
      apply Hpicked, Hdom. by rewrite Hs.
    + apply occurrences_removals_other. by apply Hnone.
  - intros Hq. rewrite removals_filter by done. by apply list_filter_iff.
Qed.

(** Claim C4.  A run that finds the cycle queue empty, both rosters being
    non-empty, enters its loop with a queue that is a permutation of the
    roster of students and with nobody assigned yet; a run that finds the
    queue non-empty leaves a queue that is the stored one with some students
    taken out, nobody added and nobody moved. *)
Theorem cycle_is_refilled_only_when_empty appState now g :
  (remainingStudentsInCycle appState = [] →
   students appState ≠ [] → jobTitles appState ≠ [] →
   cycle_at_entry appState g ≡ₚ students appState
   ∧ newCurrentAssignments (at_entry (prepare appState g)) = ∅
   ∧ studentsAssignedThisWeek (at_entry (prepare appState g)) = ∅
   ∧ ∃ st', saved (generateWeeklyAssignments appState now g) = Some st'
       ∧ remainingStudentsInCycle st'
         = newRemainingStudentsInCycle (after_loop (prepare appState g))
       ∧ remainingStudentsInCycle st' `sublist_of` cycle_at_entry appState g)
  ∧ (remainingStudentsInCycle appState ≠ [] →
     remainingStudentsInCycle
       (state_after appState (generateWeeklyAssignments appState now g))
     `sublist_of` remainingStudentsInCycle appState).
Proof.
  split.
  - intros Hq Hs Hj.
    destruct (prepare_shape appState g) as (said & Hentry & _).
    rewrite generate_runs, Hentry by done. split_and!; try done.
    + rewrite cycle_at_entry_eq, decide_True by done. apply shuffleArray_perm.
    + eexists. split; [done|]. simpl. split; [done|].
      apply (cycle_after_loop appState g).
  - intros Hq. unfold generateWeeklyAssignments. case_decide; [done|].
    simpl. pose proof (cycle_after_loop appState g) as [Hsub _].
    simpl in Hsub. by rewrite cycle_at_entry_eq, decide_False in Hsub.
Qed.

Lemma cycle_is_refilled_only_when_empty_witness :
  remainingStudentsInCycle cycle_over = []
  ∧ students cycle_over ≠ [] ∧ jobTitles cycle_over ≠ []
  ∧ cycle_at_entry cycle_over halves ≡ₚ students cycle_over
  ∧ newCurrentAssignments (at_entry (prepare cycle_over halves)) = ∅
  ∧ studentsAssignedThisWeek (at_entry (prepare cycle_over halves)) = ∅
  ∧ ∃ st', saved (generateWeeklyAssignments cycle_over "now" halves) = Some st'
      ∧ remainingStudentsInCycle st'
        = newRemainingStudentsInCycle (after_loop (prepare cycle_over halves))
      ∧ remainingStudentsInCycle st' `sublist_of` cycle_at_entry cycle_over halves.
Proof.
  assert (students cycle_over ≠ []) as Hs by discriminate.
  assert (jobTitles cycle_over ≠ []) as Hj by discriminate.
  split_and!; [reflexivity|exact Hs|exact Hj|..];
    apply (proj1 (cycle_is_refilled_only_when_empty cycle_over "now" halves)
                 eq_refl Hs Hj).
Defined.

Example cycle_over_run :
  cycle_at_entry cycle_over halves = [1; 3; 2]
  ∧ (remainingStudentsInCycle
       <$> saved (generateWeeklyAssignments cycle_over "now" halves))
    = Some [2].
Proof. by vm_compute. Qed.

(** ** History and cycle queue after a run *)


(** History and cycle queue in every run that reaches [saveState], a queue
    with repeated students included, the cycle queue being taken as the loop
    finds it (the stored queue, or a shuffle of the roster when the stored
    queue is empty): a student assigned a job has afterwards their stored
    history with that one job appended and one occurrence fewer in the queue
    (none fewer when they were not in it); a student not assigned has the
    same history and as many occurrences as before; the saved queue is what
    is left of the other, in the same order; and when that queue holds nobody
    twice the saved queue is exactly its students without a job, so every
    assigned student is out of it. *)
Theorem history_and_cycle_follow_assignments appState now g :
  students appState ≠ [] → jobTitles appState ≠ [] →
  ∃ st', saved (generateWeeklyAssignments appState now g) = Some st'
    ∧ cycle_at_entry appState g
      = (if decide (remainingStudentsInCycle appState = [])
         then (shuffleArray (students appState) g).1
         else remainingStudentsInCycle appState)
    ∧ (∀ s, match currentAssignments st' !! s with
            | Some j =>
                studentJobHistory st' !! s
                = Some (history_of (studentJobHistory appState) s ++ [j])
                ∧ occurrences s (remainingStudentsInCycle st')
                  = pred (occurrences s (cycle_at_entry appState g))
            | None =>
                studentJobHistory st' !! s = studentJobHistory appState !! s
                ∧ occurrences s (remainingStudentsInCycle st')
                  = occurrences s (cycle_at_entry appState g)
            end)
    ∧ remainingStudentsInCycle st' `sublist_of` cycle_at_entry appState g
    ∧ (NoDup (cycle_at_entry appState g) →
       remainingStudentsInCycle st'
       = filter (λ s, currentAssignments st' !! s = None)
                (cycle_at_entry appState g)).
Proof.
  intros Hs Hj. rewrite generate_runs by done.
  eexists. split; [done|]. simpl.
  destruct (cycle_after_loop appState g) as (Hsub & Hocc & Hfilter).
  split_and!; [apply cycle_at_entry_eq| |done|done].
  intros s. pose proof (history_after_loop appState g s) as Hh.
  pose proof (Hocc s) as Ho. simpl in Hh.
  by destruct (newCurrentAssignments _ !! s).
Qed.

Lemma history_and_cycle_follow_assignments_witness :
  students three_students ≠ [] ∧ jobTitles three_students ≠ []
  ∧ ∃ st', saved (generateWeeklyAssignments three_students "now" halves)
           = Some st'
      ∧ cycle_at_entry three_students halves
        = (if decide (remainingStudentsInCycle three_students = [])
           then (shuffleArray (students three_students) halves).1
           else remainingStudentsInCycle three_students)
      ∧ (∀ s, match currentAssignments st' !! s with
              | Some j =>
                  studentJobHistory st' !! s
                  = Some (history_of (studentJobHistory three_students) s ++ [j])
                  ∧ occurrences s (remainingStudentsInCycle st')
                    = pred (occurrences s (cycle_at_entry three_students halves))
              | None =>
                  studentJobHistory st' !! s
                  = studentJobHistory three_students !! s
                  ∧ occurrences s (remainingStudentsInCycle st')
                    = occurrences s (cycle_at_entry three_students halves)
              end)
      ∧ remainingStudentsInCycle st' `sublist_of`
          cycle_at_entry three_students halves
      ∧ (NoDup (cycle_at_entry three_students halves) →
         remainingStudentsInCycle st'
         = filter (λ s, currentAssignments st' !! s = None)
                  (cycle_at_entry three_students halves)).
Proof.
  assert (students three_students ≠ []) as Hs by discriminate.
  assert (jobTitles three_students ≠ []) as Hj by discriminate.
  split_and!; [exact Hs|exact Hj|].
  exact (history_and_cycle_follow_assignments three_students "now" halves
           Hs Hj).
Defined.

Example three_students_run :
  let o := generateWeeklyAssignments three_students "now" halves in
  (map_to_list ∘ currentAssignments <$> saved o) = Some [(3, "B"); (1, "A")]
  ∧ (remainingStudentsInCycle <$> saved o) = Some [2]
  ∧ (map_to_list ∘ studentJobHistory <$> saved o)
    = Some [(3, ["B"]); (1, ["A"])]
  ∧ messages o = [SetTo NoText].
Proof. by vm_compute. Qed.

(** ** Loading a stored state *)

(** Against claim C8 as stated: the loader, the one operation applied to a
    loaded state, returns for [stale_document] a state whose roster of
    students has a duplicate, and whose cycle queue and assignments still
    name student 2, who is not on that roster. *)
Lemma loader_keeps_strangers_and_duplicates :
  let st := load_snapshot initial_appState stale_document in
  students st = [1; 1]
  ∧ ¬ NoDup (students st)
  ∧ remainingStudentsInCycle st = [2]
  ∧ currentAssignments st !! 2 = Some "A"
  ∧ 2 ∉ students st.
Proof.
  simpl. split_and!; [done| |done|by vm_compute|].
  - intros Hnd. apply NoDup_cons in Hnd as [Hnin _]. apply Hnin. by left.
  - rewrite !not_elem_of_cons. split_and!; [done..|apply not_elem_of_nil].
Qed.

(** Claim C8, amended.  The operation applied to a loaded state is the
    snapshot loader, and it validates nothing: for every stored document it
    returns a state, never a failure, whose rosters, cycle queue, assignments
    and history are exactly the stored ones, taken as they are (the default
    rosters, an empty queue and empty maps standing in for missing fields),
    and whose date and user defaults are the stored ones or, where the
    document has none, those held before.  So entries of the queue or of the
    assignments that name students outside the roster are kept, and so are
    duplicates in the rosters. *)
Theorem loader_takes_the_document_as_it_is prevState data :
  let st := load_snapshot prevState data in
  students st = default DEFAULT_STUDENTS (data_students data)
  ∧ jobTitles st = default DEFAULT_JOB_TITLES (data_jobTitles data)
  ∧ remainingStudentsInCycle st
    = default [] (data_remainingStudentsInCycle data)
  ∧ currentAssignments st = default ∅ (data_currentAssignments data)
  ∧ studentJobHistory st = default ∅ (data_studentJobHistory data)
  ∧ lastAssignmentDate st
    = default (lastAssignmentDate prevState) (data_lastAssignmentDate data)
  ∧ userDefaultStudents st
    = default (userDefaultStudents prevState) (data_userDefaultStudents data)
  ∧ userDefaultJobTitles st
    = default (userDefaultJobTitles prevState)
              (data_userDefaultJobTitles data).
Proof.
  simpl. by split_and!.
Qed.

(** * The other handlers: properties *)

(** ** Sorted rosters *)

Section SortedRosters.
Implicit Types (xs ys : list Z).

Lemma sort_ascending_perm xs : sort_ascending xs ≡ₚ xs.
Proof. apply merge_sort_Permutation. Qed.

Lemma sort_ascending_sorted xs : StronglySorted Z.le (sort_ascending xs).
Proof. apply StronglySorted_merge_sort; apply _. Qed.

(** An ascending arrangement of a list of integers is unique: the result of
    [sort] does not depend on how the engine sorts. *)
Lemma ascending_unique xs ys :
  StronglySorted Z.le xs → StronglySorted Z.le ys → xs ≡ₚ ys → xs = ys.
Proof. intros. by apply (StronglySorted_unique Z.le). Qed.

Lemma strictly_ascending xs :
  StronglySorted Z.le xs → NoDup xs → StronglySorted Z.lt xs.
Proof.
  induction 1 as [|x xs Hs IH Hx]; intros Hnd; [constructor|].
  apply NoDup_cons in Hnd as [Hnin Hnd]. constructor; [by apply IH|].
  rewrite Forall_forall in Hx |- *. intros y Hy.
  specialize (Hx y Hy). assert (x ≠ y) by (by intros ->). lia.
Qed.

Lemma ascending_NoDup xs : StronglySorted Z.lt xs → NoDup xs.
Proof.
  induction 1 as [|x xs Hs IH Hx]; constructor; [|done].
  intros Hin. rewrite Forall_forall in Hx. specialize (Hx x Hin). lia.
Qed.

Lemma ascending_filter (P : Z → Prop) `{!∀ x, Decision (P x)} xs :
  StronglySorted Z.lt xs → StronglySorted Z.lt (filter P xs).
Proof.
  induction 1 as [|x xs Hs IH Hx]; [constructor|].
  rewrite filter_cons. case_decide; [|done]. constructor; [done|].
  rewrite Forall_forall in Hx |- *. intros y Hy.
  apply Hx. by apply list_elem_of_filter in Hy as [_ ?].
Qed.

Lemma roster_ok_NoDup xs : roster_ok xs → NoDup xs.
Proof. intros [? _]. by apply ascending_NoDup. Qed.

Lemma roster_ok_filter (P : Z → Prop) `{!∀ x, Decision (P x)} xs :
  roster_ok xs → roster_ok (filter P xs).
Proof.
  intros [Hs Hp]. split; [by apply ascending_filter|].
  rewrite Forall_forall in Hp |- *. intros y Hy.
  apply Hp. by apply list_elem_of_filter in Hy as [_ ?].
Qed.

Lemma roster_ok_add xs (n : Z) :
  roster_ok xs → 0 < n → n ∉ xs → roster_ok (sort_ascending (xs ++ [n])).
Proof.
  intros Hok Hpos Hnew. pose proof (roster_ok_NoDup _ Hok) as Hnd.
  destruct Hok as [_ Hp]. split.
  - apply strictly_ascending; [apply sort_ascending_sorted|].
    rewrite sort_ascending_perm. apply NoDup_app. split_and!; [done| |].
    + intros x Hx. rewrite list_elem_of_singleton. by intros ->.
    + apply NoDup_singleton.
  - rewrite sort_ascending_perm. apply Forall_app. split; [done|].
    by repeat constructor.
Qed.

Lemma roster_ok_defaults : roster_ok DEFAULT_STUDENTS.
Proof.
  split.
  - apply (bool_decide_unpack _). vm_compute. exact I.
  - apply (bool_decide_unpack _). vm_compute. exact I.
Qed.

Lemma titles_ok_defaults : titles_ok DEFAULT_JOB_TITLES.
Proof.
  split.
  - apply (bool_decide_unpack _). vm_compute. exact I.
  - apply (bool_decide_unpack _). vm_compute. exact I.
Qed.

Lemma roster_ok_or_fallback xs : roster_ok xs → roster_ok (or_fallback xs DEFAULT_STUDENTS).
Proof. unfold or_fallback. case_decide; [done|]. intros _. apply roster_ok_defaults. Qed.

Lemma titles_ok_or_fallback js :
  titles_ok js → titles_ok (or_fallback js DEFAULT_JOB_TITLES).
Proof. unfold or_fallback. case_decide; [done|]. intros _. apply titles_ok_defaults. Qed.

End SortedRosters.

(** ** Editing the rosters *)

Lemma occurrences_filter_other (queue : list Z) (s s' : Z) :
  s' ≠ s →
  occurrences s' (filter (λ x, x ≠ s) queue) = occurrences s' queue.
Proof.
  intros Hne. unfold occurrences. rewrite list_filter_filter. f_equal.
  apply list_filter_iff. intros x. split; [tauto|]. intros ->. done.
Qed.

(** Removing a student takes the student out of the roster, the cycle queue,
    the current assignments and the history, and changes nothing for anybody
    else: the others keep their place on the roster and in the queue, their
    assignment and their history; the job titles stay. *)
Theorem removeStudent_cascades appState (s : Z) :
  ∃ st', edit_saved (removeStudent appState s) = Some st'
    ∧ (s ∉ students st')
    ∧ (s ∉ remainingStudentsInCycle st')
    ∧ currentAssignments st' !! s = None
    ∧ studentJobHistory st' !! s = None
    ∧ (∀ s', s' ≠ s →
         (s' ∈ students st' ↔ s' ∈ students appState)
         ∧ occurrences s' (remainingStudentsInCycle st')
           = occurrences s' (remainingStudentsInCycle appState)
         ∧ currentAssignments st' !! s' = currentAssignments appState !! s'
         ∧ studentJobHistory st' !! s' = studentJobHistory appState !! s')
    ∧ students st' `sublist_of` students appState
    ∧ remainingStudentsInCycle st' `sublist_of` remainingStudentsInCycle appState
    ∧ jobTitles st' = jobTitles appState.
Proof.
  eexists. split; [reflexivity|]. simpl. split_and!.
  - rewrite list_elem_of_filter. tauto.
  - rewrite list_elem_of_filter. tauto.
  - apply lookup_delete_eq.
  - apply lookup_delete_eq.
  - intros s' Hne. split_and!.
    + rewrite list_elem_of_filter. tauto.
    + by apply occurrences_filter_other.
    + by rewrite lookup_delete_ne.
    + by rewrite lookup_delete_ne.
  - apply sublist_filter.
  - apply sublist_filter.
  - done.
Qed.

(** [addStudent] saves exactly when the number is a positive integer that is
    not on the roster.  The saved roster is then the old one with the number
    put in, in ascending order; nothing else changes, so the new student is
    in the cycle queue only if the number was there already.  Otherwise
    nothing is saved and the message tells why: the number exists, or it is
    not a positive integer. *)
Theorem addStudent_adds_in_order appState (num : option Z) :
  match edit_saved (addStudent appState num) with
  | Some st' =>
      ∃ n, num = Some n ∧ 0 < n ∧ (n ∉ students appState)
        ∧ students st' ≡ₚ n :: students appState
        ∧ StronglySorted Z.le (students st')
        ∧ st' = with_students appState (students st')
        ∧ edit_says (addStudent appState num) = None
  | None =>
      match num with
      | Some n =>
          if decide (n ∈ students appState)
          then edit_says (addStudent appState num) = Some StudentNumberExists
          else (n ≤ 0)%Z
               ∧ edit_says (addStudent appState num)
                 = Some InvalidStudentNumber
      | None =>
          edit_says (addStudent appState num) = Some InvalidStudentNumber
      end
  end.
Proof.
  unfold addStudent. destruct num as [n|]; [|done].
  destruct (decide (0 < n ∧ n ∉ students appState)) as [[Hpos Hnew]|Hno]; simpl.
  - exists n. split_and!; try done.
    + rewrite sort_ascending_perm. by rewrite Permutation_app_comm.
    + apply sort_ascending_sorted.
  - destruct (decide (n ∈ students appState)); simpl; [done|].
    split; [|done]. apply Znot_gt_le. intros ?. apply Hno. split; [lia|done].
Qed.

(** [addJobTitle] saves exactly when the trimmed text is not empty and is
    not a job title yet; it then puts the trimmed text at the end of the
    roster and changes nothing else.  A title that exists is refused with a
    message; an empty text that is no title does nothing at all. *)
Theorem addJobTitle_appends_new_title trim appState (newJobTitle : string) :
  match edit_saved (addJobTitle trim appState newJobTitle) with
  | Some st' =>
      trim newJobTitle ≠ EmptyString
      ∧ (trim newJobTitle ∉ jobTitles appState)
      ∧ st' = with_jobTitles appState (jobTitles appState ++ [trim newJobTitle])
      ∧ (NoDup (jobTitles appState) → NoDup (jobTitles st'))
      ∧ edit_says (addJobTitle trim appState newJobTitle) = None
  | None =>
      if decide (trim newJobTitle ∈ jobTitles appState)
      then edit_says (addJobTitle trim appState newJobTitle)
           = Some JobTitleExists
      else trim newJobTitle = EmptyString
           ∧ edit_says (addJobTitle trim appState newJobTitle) = None
  end.
Proof.
  unfold addJobTitle.
  destruct (decide (trim newJobTitle ≠ EmptyString
                    ∧ trim newJobTitle ∉ jobTitles appState))
    as [[Hne Hnew]|Hno]; simpl.
  - split_and!; try done. intros Hnd. apply NoDup_app. split_and!; [done| |].
    + intros x Hx. rewrite list_elem_of_singleton. by intros ->.
    + apply NoDup_singleton.
  - destruct (decide (trim newJobTitle ∈ jobTitles appState)); simpl; [done|].
    split; [|done]. destruct (decide (trim newJobTitle = EmptyString)); [done|].
    destruct Hno. done.
Qed.

(** ** More about a run *)

Section Counting.
Variable available : list Z.
Variable log0 : gmap Z (list string).
Variable cycle0 : list Z.
Variable said : list setMessage_call.

Local Abbreviation run jobs :=
  (assign_all available jobs (first_week log0 cycle0 said)).

Lemma assigned_size (handled : list string) (w : week) :
  week_ok available log0 cycle0 handled w →
  size (newCurrentAssignments w) = size (studentsAssignedThisWeek w).
Proof.
  intros Hok. rewrite <- size_dom. f_equal. apply set_eq. intros s.
  by rewrite elem_of_dom, (ok_dom _ _ _ _ _ Hok).
Qed.

(** With a pool without repetition, the students with a job are as many as
    the jobs handled, until the pool is exhausted. *)
Lemma assigned_count (jobs : list string) :
  NoDup available →
  size (studentsAssignedThisWeek (run jobs))
  = (length jobs `min` length available)%nat.
Proof.
  intros Hnd.
  apply (assign_all_ind available jobs (first_week log0 cycle0 said)
           (λ handled w, size (studentsAssignedThisWeek w)
                         = (length handled `min` length available)%nat)).
  { unfold first_week. week_fields. by rewrite size_empty. }
  intros handled job rest _ IH.
  pose proof (week_ok_assign_all available log0 cycle0 handled said) as Hok.
  assert (studentsAssignedThisWeek (run handled) ⊆ list_to_set available)
    as Hsub.
  { intros s Hs. apply elem_of_list_to_set. by eapply ok_pool. }
  pose proof (size_list_to_set (C := gset Z) available Hnd) as Hsize.
  rewrite length_app. simpl.
  destruct (assign_job_cases available (run handled) job)
    as [[Hnil ->]|(s & warnings & _ & Hch & ->)]; week_fields.
  - assert (list_to_set available ⊆ studentsAssignedThisWeek (run handled))
      as Hsup.
    { intros s Hs. apply elem_of_list_to_set in Hs.
      destruct (decide (s ∈ studentsAssignedThisWeek (run handled)))
        as [|Hn]; [done|].
      destruct (filter_nil_not_elem_of _ _ s Hnil Hn Hs). }
    apply subseteq_size in Hsup. lia.
  - apply choose_elem_of, elem_of_eligible in Hch as [Hav Hfresh].
    rewrite size_union by (by apply disjoint_singleton_l).
    rewrite size_singleton.
    assert (size (studentsAssignedThisWeek (run handled))
            < size (list_to_set (C := gset Z) available))%nat.
    { apply subset_size. split; [done|]. intros Hrev.
      apply Hfresh, Hrev, elem_of_list_to_set. done. }
    lia.
Qed.

(** Every job handled either went to a student or was announced as
    skipped. *)
Lemma handled_jobs_count (jobs : list string) :
  (size (studentsAssignedThisWeek (run jobs)) + skipped_jobs (calls (run jobs))
   = length jobs + skipped_jobs said)%nat.
Proof.
  apply (assign_all_ind available jobs (first_week log0 cycle0 said)
           (λ handled w,
              size (studentsAssignedThisWeek w) + skipped_jobs (calls w)
              = length handled + skipped_jobs said)%nat).
  { unfold first_week. week_fields. by rewrite size_empty. }
  intros handled job rest _ IH. rewrite length_app. simpl.
  destruct (assign_job_cases available (run handled) job)
    as [[Hnil ->]|(s & warnings & _ & Hch & ->)]; week_fields.
  - unfold skipped_jobs in *. rewrite filter_app, length_app. simpl. lia.
  - pose proof (choose_elem_of _ _ _ _ _ Hch) as Hs.
    apply elem_of_eligible in Hs as [_ Hfresh].
    rewrite size_union by (by apply disjoint_singleton_l).
    rewrite size_singleton.
    assert (skipped_jobs (calls (run handled) ++ warnings)
            = skipped_jobs (calls (run handled))) as ->; [|lia].
    unfold skipped_jobs. rewrite filter_app, length_app.
    destruct (choose_cases (newStudentJobHistory (run handled)) job
                (eligibleStudentsForJob available (run handled)))
      as [(s1 & _ & Hch1)|[(_ & s1 & tl & _ & Hch1)|[_ Hch1]]];
      rewrite Hch in Hch1; simplify_eq; simpl; lia.
Qed.

(** The warning of the last resort is true of the student it names. *)
Lemma last_resort_is_true_loop (jobs : list string) (s : Z) (j : string) :
  Append (HadBeforeWarning s j) ∉ said →
  Append (HadBeforeWarning s j) ∈ calls (run jobs) →
  newCurrentAssignments (run jobs) !! s = Some j
  ∧ j ∈ recentHistoryJobs (history_of log0 s).
Proof.
  intros Hsaid.
  apply (assign_all_ind available jobs (first_week log0 cycle0 said)
           (λ _ w, Append (HadBeforeWarning s j) ∈ calls w →
                   newCurrentAssignments w !! s = Some j
                   ∧ j ∈ recentHistoryJobs (history_of log0 s))).
  { simpl. done. }
  intros handled job rest _ IH.
  pose proof (week_ok_assign_all available log0 cycle0 handled said) as Hok.
  destruct (assign_job_cases available (run handled) job)
    as [[Hnil ->]|(s1 & warnings & _ & Hch & ->)]; week_fields.
  { rewrite elem_of_app, list_elem_of_singleton. intros [?|?]; [auto|done]. }
  pose proof (choose_elem_of _ _ _ _ _ Hch) as Hs1.
  apply elem_of_eligible in Hs1 as [Hav Hfresh].
  rewrite elem_of_app. intros [Hold|Hnew].
  - destruct (IH Hold) as [Hsj Hrecent]. split; [|done].
    rewrite lookup_insert_ne; [done|]. intros ->.
    apply Hfresh, (ok_dom _ _ _ _ _ Hok). eauto.
  - destruct (choose_cases (newStudentJobHistory (run handled)) job
                (eligibleStudentsForJob available (run handled)))
      as [(s2 & _ & Hch1)|[(Hnone & s2 & tl & Hel & Hch1)|[_ Hch1]]];
      rewrite Hch in Hch1; [| |done].
    { injection Hch1 as -> ->. by apply elem_of_nil in Hnew. }
    injection Hch1 as -> ->.
    apply list_elem_of_singleton in Hnew. injection Hnew as -> ->.
    split; [by rewrite lookup_insert_eq|].
    rewrite not_recently_None in Hnone.
    specialize (Hnone s2). unfold history_of in Hnone |- *.
    rewrite (ok_log_kept _ _ _ _ _ Hok) in Hnone by done.
    apply Hnone. rewrite Hel. by left.
Qed.

End Counting.

Section RunsThatSave.
Implicit Types (appState : AppState) (g : Random.source) (now : string).

Lemma saved_run appState now g st' :
  saved (generateWeeklyAssignments appState now g) = Some st' →
  students appState ≠ [] ∧ jobTitles appState ≠ []
  ∧ generateWeeklyAssignments appState now g
    = finish appState now (after_loop (prepare appState g))
             (source_left (prepare appState g)).
Proof.
  intros Hsaved.
  destruct (students appState) as [|s0 ss] eqn:Hs.
  { rewrite generate_stops in Hsaved by (by left). done. }
  destruct (jobTitles appState) as [|j0 js] eqn:Hj.
  { rewrite generate_stops in Hsaved by (by right). done. }
  split_and!; [done..|]. apply generate_runs; by rewrite ?Hs, ?Hj.
Qed.

(** Before the loop only whole texts have been set, none appended. *)
Lemma prepare_said appState g :
  Forall (λ c, ∃ n, c = SetTo n ∧ n ≠ NotEnoughStudents)
         (calls (at_entry (prepare appState g))).
Proof.
  unfold prepare.
  set (said1 := if decide _ then _ else _).
  assert (Forall (λ c, ∃ n, c = SetTo n ∧ n ≠ NotEnoughStudents) said1)
    as Hsaid1.
  { unfold said1. case_decide; repeat constructor; eauto. }
  destruct (start_cycle appState said1 g) as [[cycle said2] g1] eqn:Hsc.
  assert (Forall (λ c, ∃ n, c = SetTo n ∧ n ≠ NotEnoughStudents) said2)
    as Hsaid2.
  { revert Hsc. unfold start_cycle. case_decide.
    - destruct (shuffleArray _ g). intros ?; simplify_eq.
      apply Forall_app. split; [done|]. repeat constructor. eauto.
    - by intros ?; simplify_eq. }
  by do 2 destruct (shuffleArray _ _).
Qed.

Lemma skipped_jobs_none (said : list setMessage_call) :
  Forall (λ c, ∃ n, c = SetTo n ∧ n ≠ NotEnoughStudents) said →
  skipped_jobs said = 0%nat.
Proof.
  unfold skipped_jobs. induction 1 as [|c said (n & -> & _) _ IH]; [done|].
  by rewrite filter_cons_False.
Qed.

Lemma filter_drops_all (P : Z → Prop) `{!∀ x, Decision (P x)} (xs : list Z) :
  (∀ x, x ∈ xs → ¬ P x) → filter P xs = [].
Proof.
  induction xs as [|y xs IH]; intros Hall; [done|].
  rewrite filter_cons_False by (apply Hall; by left).
  apply IH. intros x Hx. apply Hall. by right.
Qed.

End RunsThatSave.

(** Whatever the state, a run gives jobs of the roster to students of the
    roster only: every saved assignment has a student of the stored roster
    as key and a stored job title as value, and a student with a history
    afterwards had one before or is on the roster. *)
Theorem assignments_stay_in_the_rosters appState now g st' :
  saved (generateWeeklyAssignments appState now g) = Some st' →
  (∀ s j, currentAssignments st' !! s = Some j →
          s ∈ students appState ∧ j ∈ jobTitles appState)
  ∧ (∀ s, is_Some (studentJobHistory st' !! s) →
          is_Some (studentJobHistory appState !! s) ∨ s ∈ students appState).
Proof.
  intros Hsaved. destruct (saved_run _ _ _ _ Hsaved) as (_ & _ & Hrun).
  rewrite Hrun in Hsaved. simpl in Hsaved. simplify_eq/=.
  destruct (prepare_shape appState g) as (said & _ & Hpool & Hjobs & _).
  pose proof (week_ok_after_loop appState g) as Hok.
  assert (∀ s j, newCurrentAssignments (after_loop (prepare appState g)) !! s
                 = Some j →
                 s ∈ students appState ∧ j ∈ jobTitles appState) as Hin.
  { intros s j Hsj. split.
    - rewrite <- Hpool. apply (ok_pool _ _ _ _ _ Hok), (ok_dom _ _ _ _ _ Hok).
      eauto.
    - rewrite <- Hjobs. by eapply (ok_jobs _ _ _ _ _ Hok). }
  split; [done|]. intros s Hs.
  pose proof (history_after_loop appState g s) as Hh. simpl in Hh.
  destruct (newCurrentAssignments _ !! s) as [j|] eqn:Hsj.
  - right. by eapply Hin.
  - left. by rewrite <- Hh.
Qed.

Lemma assignments_stay_in_the_rosters_witness :
  saved (generateWeeklyAssignments three_students "now" halves)
  = Some (state_after three_students
            (generateWeeklyAssignments three_students "now" halves))
  ∧ (∀ s j,
       currentAssignments
         (state_after three_students
            (generateWeeklyAssignments three_students "now" halves)) !! s
       = Some j →
       s ∈ students three_students ∧ j ∈ jobTitles three_students).
Proof.
  assert (saved (generateWeeklyAssignments three_students "now" halves)
          = Some (state_after three_students
                    (generateWeeklyAssignments three_students "now" halves)))
    as Hsaved by reflexivity.
  split; [exact Hsaved|].
  exact (proj1 (assignments_stay_in_the_rosters three_students "now" halves
                  _ Hsaved)).
Defined.

Lemma served_after_loop appState g :
  NoDup (students appState) →
  size (newCurrentAssignments (after_loop (prepare appState g)))
  = (length (jobTitles appState) `min` length (students appState))%nat
  ∧ ((length (students appState) ≤ length (jobTitles appState))%nat →
     ∀ s, s ∈ students appState →
          is_Some (newCurrentAssignments (after_loop (prepare appState g)) !! s)).
Proof.
  intros Hnd.
  destruct (prepare_shape appState g) as (said & Hentry & Hpool & Hjobs & _).
  pose proof (week_ok_after_loop appState g) as Hok.
  pose proof (assigned_count
                (availableStudentsForThisWeek (prepare appState g))
                (studentJobHistory appState) (cycle_at_entry appState g) said
                (shuffledJobTitles (prepare appState g))) as Hcount.
  rewrite <- Hentry in Hcount. fold (after_loop (prepare appState g)) in Hcount.
  rewrite Hpool, Hjobs in Hcount. specialize (Hcount Hnd).
  rewrite (assigned_size _ _ _ _ _ Hok). split; [done|].
  intros Hle s Hs. apply (ok_dom _ _ _ _ _ Hok).
  assert (studentsAssignedThisWeek (after_loop (prepare appState g))
          = list_to_set (students appState)) as ->.
  { apply set_subseteq_size_eq.
    - intros x Hx. apply elem_of_list_to_set. rewrite <- Hpool.
      by eapply ok_pool.
    - rewrite size_list_to_set by done. lia. }
  by apply elem_of_list_to_set.
Qed.

(** With a roster of students without repetition, a run makes as many
    assignments as the shorter roster is long; when there are at least as
    many job titles as students, every student of the roster gets a job. *)
Theorem number_of_assignments appState now g st' :
  NoDup (students appState) →
  saved (generateWeeklyAssignments appState now g) = Some st' →
  size (currentAssignments st')
  = (length (jobTitles appState) `min` length (students appState))%nat
  ∧ ((length (students appState) ≤ length (jobTitles appState))%nat →
     ∀ s, s ∈ students appState → is_Some (currentAssignments st' !! s)).
Proof.
  intros Hnd Hsaved. destruct (saved_run _ _ _ _ Hsaved) as (_ & _ & Hrun).
  rewrite Hrun in Hsaved. simpl in Hsaved. simplify_eq/=.
  by apply served_after_loop.
Qed.

Lemma number_of_assignments_witness :
  NoDup (students two_students)
  ∧ saved (generateWeeklyAssignments two_students "now" halves)
    = Some (state_after two_students
              (generateWeeklyAssignments two_students "now" halves))
  ∧ size (currentAssignments
            (state_after two_students
               (generateWeeklyAssignments two_students "now" halves)))
    = (length (jobTitles two_students) `min` length (students two_students))%nat.
Proof.
  assert (NoDup (students two_students)) as Hnd.
  { apply (bool_decide_unpack _). vm_compute. exact I. }
  assert (saved (generateWeeklyAssignments two_students "now" halves)
          = Some (state_after two_students
                    (generateWeeklyAssignments two_students "now" halves)))
    as Hsaved by reflexivity.
  split_and!; [exact Hnd|exact Hsaved|].
  exact (proj1 (number_of_assignments two_students "now" halves _ Hnd Hsaved)).
Defined.

(** In every run each job title is either given to a student or announced
    as skipped: the assignments saved and the announcements of a job skipped
    for want of students add up to the number of job titles. *)
Theorem every_job_is_given_or_skipped appState now g st' :
  saved (generateWeeklyAssignments appState now g) = Some st' →
  (size (currentAssignments st')
   + skipped_jobs (messages (generateWeeklyAssignments appState now g))
   = length (jobTitles appState))%nat.
Proof.
  intros Hsaved. destruct (saved_run _ _ _ _ Hsaved) as (_ & _ & Hrun).
  rewrite Hrun in Hsaved |- *. simpl in Hsaved. simplify_eq/=.
  destruct (prepare_shape appState g) as (said & Hentry & Hpool & Hjobs & _).
  pose proof (week_ok_after_loop appState g) as Hok.
  pose proof (prepare_said appState g) as Hsaid. rewrite Hentry in Hsaid.
  pose proof (handled_jobs_count
                (availableStudentsForThisWeek (prepare appState g))
                (studentJobHistory appState) (cycle_at_entry appState g) said
                (shuffledJobTitles (prepare appState g))) as Hcount.
  rewrite <- Hentry in Hcount. fold (after_loop (prepare appState g)) in Hcount.
  rewrite (skipped_jobs_none said Hsaid), Hjobs in Hcount.
  rewrite (assigned_size _ _ _ _ _ Hok).
  assert (skipped_jobs
            (if decide
                  (length (newRemainingStudentsInCycle
                             (after_loop (prepare appState g))) = 0%nat
                   ∧ (0 < length (students appState))%nat)
             then calls (after_loop (prepare appState g))
                  ++ [Append CycleComplete]
             else calls (after_loop (prepare appState g)))
          = skipped_jobs (calls (after_loop (prepare appState g)))) as ->;
    [|lia].
  case_decide; [|done]. unfold skipped_jobs.
  rewrite filter_app, length_app. simpl. lia.
Qed.

Lemma every_job_is_given_or_skipped_witness :
  saved (generateWeeklyAssignments two_students "now" halves)
  = Some (state_after two_students
            (generateWeeklyAssignments two_students "now" halves))
  ∧ (size (currentAssignments
             (state_after two_students
                (generateWeeklyAssignments two_students "now" halves)))
     + skipped_jobs (messages (generateWeeklyAssignments two_students "now" halves))
     = length (jobTitles two_students))%nat.
Proof.
  assert (saved (generateWeeklyAssignments two_students "now" halves)
          = Some (state_after two_students
                    (generateWeeklyAssignments two_students "now" halves)))
    as Hsaved by reflexivity.
  split; [exact Hsaved|].
  exact (every_job_is_given_or_skipped two_students "now" halves _ Hsaved).
Defined.

Example two_students_run :
  let o := generateWeeklyAssignments two_students "now" halves in
  (map_to_list ∘ currentAssignments <$> saved o) = Some [(2, "C"); (1, "A")]
  ∧ (remainingStudentsInCycle <$> saved o) = Some []
  ∧ messages o
    = [SetTo NoText; SetTo MoreJobsThanStudents;
       Append NotEnoughStudents; Append CycleComplete].
Proof. by vm_compute. Qed.

(** The warning that a student got a job "even though they've had it before"
    is never a false alarm: the student it names was given the job it names
    in this run, and that job is among the last two of the student's stored
    history. *)
Theorem last_resort_warning_is_true appState now g (s : Z) (j : string) :
  Append (HadBeforeWarning s j)
    ∈ messages (generateWeeklyAssignments appState now g) →
  ∃ st', saved (generateWeeklyAssignments appState now g) = Some st'
    ∧ currentAssignments st' !! s = Some j
    ∧ j ∈ recentHistoryJobs (history_of (studentJobHistory appState) s)
    ∧ j ∈ history_of (studentJobHistory appState) s.
Proof.
  unfold generateWeeklyAssignments. case_decide.
  { simpl. rewrite !elem_of_cons, elem_of_nil. intros [?|[?|[]]]; done. }
  simpl. intros Hin. eexists. split; [done|]. simpl.
  destruct (prepare_shape appState g) as (said & Hentry & _).
  pose proof (prepare_said appState g) as Hsaid. rewrite Hentry in Hsaid.
  assert (Append (HadBeforeWarning s j) ∉ said) as Hnot.
  { intros Hs. rewrite Forall_forall in Hsaid.
    by destruct (Hsaid _ Hs) as (n & ? & _). }
  assert (Append (HadBeforeWarning s j)
            ∈ calls (after_loop (prepare appState g))) as Hcalls.
  { revert Hin. case_decide; [|done].
    rewrite elem_of_app, list_elem_of_singleton. by intros [?|?]. }
  unfold after_loop in *. rewrite Hentry in *.
  destruct (last_resort_is_true_loop _ _ _ _ _ _ _ Hnot Hcalls) as [Hsj Hrecent].
  split_and!; [done..|]. by apply recent_in_history.
Qed.

Lemma last_resort_warning_is_true_witness :
  Append (HadBeforeWarning 7 "A")
    ∈ messages (generateWeeklyAssignments one_student "now" halves)
  ∧ ∃ st', saved (generateWeeklyAssignments one_student "now" halves) = Some st'
      ∧ currentAssignments st' !! 7 = Some "A"
      ∧ "A" ∈ recentHistoryJobs (history_of (studentJobHistory one_student) 7)
      ∧ "A" ∈ history_of (studentJobHistory one_student) 7.
Proof.
  assert (Append (HadBeforeWarning 7 "A")
            ∈ messages (generateWeeklyAssignments one_student "now" halves))
    as Hin.
  { vm_compute. right. left. }
  split; [exact Hin|].
  exact (last_resort_warning_is_true one_student "now" halves 7 "A" Hin).
Defined.

(** When every student can be served, the cycle ends with the run: in a
    state whose roster of students has no repetition, whose cycle queue has
    none either and names students of the roster only, and which has at
    least as many job titles as students, a run gives every student a job,
    saves an empty cycle queue and announces, before it calls [saveState],
    that the cycle is complete. *)
Theorem full_roster_completes_the_cycle appState now g st' :
  NoDup (students appState) →
  NoDup (remainingStudentsInCycle appState) →
  (∀ s, s ∈ remainingStudentsInCycle appState → s ∈ students appState) →
  (length (students appState) ≤ length (jobTitles appState))%nat →
  saved (generateWeeklyAssignments appState now g) = Some st' →
  remainingStudentsInCycle st' = []
  ∧ (∀ s, s ∈ students appState → is_Some (currentAssignments st' !! s))
  ∧ Append CycleComplete
      ∈ messages (generateWeeklyAssignments appState now g).
Proof.
  intros Hnd Hq Hsub Hle Hsaved.
  destruct (served_after_loop appState g Hnd) as [_ Hall].
  specialize (Hall Hle).
  destruct (saved_run _ _ _ _ Hsaved) as (Hs & _ & Hrun).
  rewrite Hrun in Hsaved |- *. simpl in Hsaved. simplify_eq/=.
  assert (NoDup (cycle_at_entry appState g)
          ∧ ∀ s, s ∈ cycle_at_entry appState g → s ∈ students appState)
    as [Hq0 Hsub0].
  { rewrite cycle_at_entry_eq. case_decide; [|done]. split.
    - by apply shuffleArray_NoDup.
    - intros s. by rewrite shuffleArray_elem_of. }
  destruct (cycle_after_loop appState g) as (_ & _ & Hfilter).
  simpl in Hfilter. specialize (Hfilter Hq0).
  assert (newRemainingStudentsInCycle (after_loop (prepare appState g)) = [])
    as Hempty.
  { rewrite Hfilter. apply filter_drops_all. intros s Hin Hnone.
    destruct (Hall s (Hsub0 s Hin)) as [j Hj]. congruence. }
  split_and!; [done..|].
  rewrite Hempty, decide_True;
    [rewrite elem_of_app, list_elem_of_singleton; by right|].
  split; [done|]. destruct (students appState); [done|simpl; lia].
Qed.

Lemma full_roster_completes_the_cycle_witness :
  NoDup (students one_student)
  ∧ NoDup (remainingStudentsInCycle one_student)
  ∧ (∀ s, s ∈ remainingStudentsInCycle one_student → s ∈ students one_student)
  ∧ (length (students one_student) ≤ length (jobTitles one_student))%nat
  ∧ remainingStudentsInCycle
      (state_after one_student
         (generateWeeklyAssignments one_student "now" halves)) = []
  ∧ Append CycleComplete
      ∈ messages (generateWeeklyAssignments one_student "now" halves).
Proof.
  assert (NoDup (students one_student)) as Hnd.
  { apply (bool_decide_unpack _). vm_compute. exact I. }
  assert (NoDup (remainingStudentsInCycle one_student)) as Hq.
  { apply (bool_decide_unpack _). vm_compute. exact I. }
  assert (∀ s, s ∈ remainingStudentsInCycle one_student
               → s ∈ students one_student) as Hsub.
  { intros s Hs. exact Hs. }
  assert (length (students one_student)
          ≤ length (jobTitles one_student))%nat as Hle.
  { simpl. lia. }
  split_and!; [exact Hnd|exact Hq|exact Hsub|exact Hle|..];
    apply (full_roster_completes_the_cycle one_student "now" halves _
             Hnd Hq Hsub Hle eq_refl).
Defined.

(** ** The cycle queue decides nothing *)

Lemma assign_job_choice_state (available : list Z) (w1 w2 : week)
    (job : string) :
  choice_state w1 = choice_state w2 →
  choice_state (assign_job available w1 job)
  = choice_state (assign_job available w2 job).
Proof.
  destruct w1 as [a1 m1 h1 q1 c1], w2 as [a2 m2 h2 q2 c2].
  unfold choice_state. simpl. intros ?; simplify_eq.
  unfold assign_job, eligibleStudentsForJob. simpl.
  case_decide; [done|].
  by destruct (choose _ _ _) as [[s warnings]|].
Qed.

Lemma assign_all_choice_state (available : list Z) (jobs : list string)
    (w1 w2 : week) :
  choice_state w1 = choice_state w2 →
  choice_state (assign_all available jobs w1)
  = choice_state (assign_all available jobs w2).
Proof.
  revert w1 w2. induction jobs as [|job jobs IH]; intros w1 w2 Heq; [done|].
  simpl. apply IH. by apply assign_job_choice_state.
Qed.

(** The cycle queue is bookkeeping only; it never steers a run.  Two states
    with the same rosters and the same history, whose cycle queues are both
    empty or both non-empty, get from the same random draws the same
    assignments and the same histories, whatever the contents of the queues
    and whatever the assignments they held before. *)
Theorem cycle_queue_never_steers_the_choice appState1 appState2 now g :
  students appState1 = students appState2 →
  jobTitles appState1 = jobTitles appState2 →
  studentJobHistory appState1 = studentJobHistory appState2 →
  (remainingStudentsInCycle appState1 = []
   ↔ remainingStudentsInCycle appState2 = []) →
  currentAssignments <$> saved (generateWeeklyAssignments appState1 now g)
  = currentAssignments <$> saved (generateWeeklyAssignments appState2 now g)
  ∧ studentJobHistory <$> saved (generateWeeklyAssignments appState1 now g)
    = studentJobHistory <$> saved (generateWeeklyAssignments appState2 now g).
Proof.
  intros Hs Hj Hh Hq. unfold generateWeeklyAssignments. rewrite Hs, Hj.
  case_decide; [done|]. simpl.
  assert (availableStudentsForThisWeek (prepare appState1 g)
          = availableStudentsForThisWeek (prepare appState2 g)
          ∧ shuffledJobTitles (prepare appState1 g)
            = shuffledJobTitles (prepare appState2 g)
          ∧ choice_state (at_entry (prepare appState1 g))
            = choice_state (at_entry (prepare appState2 g))) as (Hp & Hjo & Hc).
  { unfold prepare. rewrite Hs, Hj, Hh.
    set (said1 := if decide _ then _ else _). clearbody said1.
    destruct (decide (remainingStudentsInCycle appState1 = [])) as [H1|H1].
    - rewrite (start_cycle_empty _ _ _ H1),
        (start_cycle_empty _ _ _ (proj1 Hq H1)), Hs.
      destruct (shuffleArray (students appState2) g) as [refilled g1]. simpl.
      do 2 destruct (shuffleArray _ _). by split_and!.
    - rewrite (start_cycle_nonempty _ _ _ H1),
        (start_cycle_nonempty _ _ _ (λ H2, H1 (proj2 Hq H2))).
      do 2 destruct (shuffleArray _ _). by split_and!. }
  pose proof (assign_all_choice_state
                (availableStudentsForThisWeek (prepare appState1 g))
                (shuffledJobTitles (prepare appState1 g)) _ _ Hc) as Hend.
  unfold after_loop. rewrite <- Hp, <- Hjo.
  unfold choice_state in Hend. injection Hend as Ha _ Hl _.
  by rewrite Ha, Hl.
Qed.

Lemma cycle_queue_never_steers_the_choice_witness :
  students two_students = students two_students_later
  ∧ jobTitles two_students = jobTitles two_students_later
  ∧ studentJobHistory two_students = studentJobHistory two_students_later
  ∧ (remainingStudentsInCycle two_students = []
     ↔ remainingStudentsInCycle two_students_later = [])
  ∧ currentAssignments
      <$> saved (generateWeeklyAssignments two_students "now" halves)
    = currentAssignments
        <$> saved (generateWeeklyAssignments two_students_later "now" halves)
  ∧ studentJobHistory
      <$> saved (generateWeeklyAssignments two_students "now" halves)
    = studentJobHistory
        <$> saved (generateWeeklyAssignments two_students_later "now" halves).
Proof.
  assert (remainingStudentsInCycle two_students = []
          ↔ remainingStudentsInCycle two_students_later = []) as Hq.
  { split; intros H; discriminate H. }
  split_and!; [reflexivity|reflexivity|reflexivity|exact Hq|..];
    apply (cycle_queue_never_steers_the_choice two_students two_students_later
             "now" halves eq_refl eq_refl eq_refl Hq).
Defined.

(** ** The handlers keep the state well formed *)

Section WellFormed.
Implicit Types (appState : AppState) (g : Random.source).

Lemma after_loop_in_roster appState g (s : Z) :
  is_Some (newCurrentAssignments (after_loop (prepare appState g)) !! s) →
  s ∈ students appState.
Proof.
  destruct (prepare_shape appState g) as (said & _ & Hpool & _).
  pose proof (week_ok_after_loop appState g) as Hok. intros Hs.
  rewrite <- Hpool. by apply (ok_pool _ _ _ _ _ Hok), (ok_dom _ _ _ _ _ Hok).
Qed.

Lemma cycle_at_entry_ok appState g :
  NoDup (students appState) →
  NoDup (remainingStudentsInCycle appState) →
  (∀ s, s ∈ remainingStudentsInCycle appState → s ∈ students appState) →
  NoDup (cycle_at_entry appState g)
  ∧ ∀ s, s ∈ cycle_at_entry appState g → s ∈ students appState.
Proof.
  intros Hnd Hq Hsub. rewrite cycle_at_entry_eq. case_decide; [|done]. split.
  - by apply shuffleArray_NoDup.
  - intros s. by rewrite shuffleArray_elem_of.
Qed.

Lemma well_formed_initial : well_formed initial_appState.
Proof.
  split; simpl.
  - apply roster_ok_defaults.
  - apply titles_ok_defaults.
  - constructor.
  - intros s Hs. by apply elem_of_nil in Hs.
  - intros s. rewrite lookup_empty. by intros [? ?].
  - intros s. rewrite lookup_empty. by intros [? ?].
  - intros s1 s2 j H. by rewrite lookup_empty in H.
  - split; constructor.
  - split; [constructor|apply not_elem_of_nil].
Qed.

Lemma well_formed_generate appState now g :
  well_formed appState →
  well_formed (state_after appState (generateWeeklyAssignments appState now g)).
Proof.
  intros Hwf. unfold generateWeeklyAssignments. case_decide; [done|].
  destruct Hwf as [Hst Hjt Hq Hqr Har Hhr Hone Hds Hdj]. simpl.
  destruct (cycle_at_entry_ok appState g (roster_ok_NoDup _ Hst) Hq Hqr)
    as [Hq0 Hsub0].
  destruct (cycle_after_loop appState g) as (Hsub & _ & _). simpl in Hsub.
  split; simpl.
  - done.
  - done.
  - by eapply sublist_NoDup.
  - intros s Hs. apply Hsub0. by eapply elem_of_sublist.
  - apply after_loop_in_roster.
  - intros s Hs. pose proof (history_after_loop appState g s) as Hh.
    simpl in Hh.
    destruct (newCurrentAssignments _ !! s) as [j|] eqn:Hsj.
    + apply (after_loop_in_roster appState g). by rewrite Hsj.
    + apply Hhr. by rewrite <- Hh.
  - apply after_loop_one_to_one. by destruct Hjt.
  - done.
  - done.
Qed.

Lemma well_formed_resetAssignmentHistory appState g :
  well_formed appState →
  well_formed (state_after appState (resetAssignmentHistory appState g)).
Proof.
  intros [Hst Hjt Hq Hqr Har Hhr Hone Hds Hdj]. unfold resetAssignmentHistory.
  pose proof (shuffleArray_perm (students appState) g) as Hperm.
  destruct (shuffleArray (students appState) g) as [reshuffled g'].
  simpl in *. split; simpl.
  - done.
  - done.
  - rewrite Hperm. by apply roster_ok_NoDup.
  - intros s. by rewrite Hperm.
  - intros s. rewrite lookup_empty. by intros [? ?].
  - intros s. rewrite lookup_empty. by intros [? ?].
  - intros s1 s2 j H. by rewrite lookup_empty in H.
  - done.
  - done.
Qed.

Lemma well_formed_resetAll appState g :
  well_formed appState →
  well_formed (edited appState (resetAll appState g).1).
Proof.
  intros [Hst Hjt Hq Hqr Har Hhr Hone Hds Hdj]. unfold resetAll.
  pose proof (roster_ok_or_fallback _ Hds) as Hnew.
  pose proof (shuffleArray_perm
                (or_fallback (userDefaultStudents appState) DEFAULT_STUDENTS) g)
    as Hperm.
  destruct (shuffleArray _ g) as [reshuffled g'].
  simpl in *. split; simpl.
  - done.
  - by apply titles_ok_or_fallback.
  - rewrite Hperm. by apply roster_ok_NoDup.
  - intros s. by rewrite Hperm.
  - intros s. rewrite lookup_empty. by intros [? ?].
  - intros s. rewrite lookup_empty. by intros [? ?].
  - intros s1 s2 j H. by rewrite lookup_empty in H.
  - done.
  - done.
Qed.

Lemma well_formed_clearCurrentAssignments appState :
  well_formed appState →
  well_formed (edited appState (clearCurrentAssignments appState)).
Proof.
  intros [Hst Hjt Hq Hqr Har Hhr Hone Hds Hdj]. split; simpl.
  - done.
  - done.
  - done.
  - done.
  - intros s. rewrite lookup_empty. by intros [? ?].
  - done.
  - intros s1 s2 j H. by rewrite lookup_empty in H.
  - done.
  - done.
Qed.

Lemma well_formed_addJobTitle trim appState (newJobTitle : string) :
  well_formed appState →
  well_formed (edited appState (addJobTitle trim appState newJobTitle)).
Proof.
  intros Hwf. unfold addJobTitle.
  case_decide as Hok; [|by case_decide]. destruct Hok as [Hne Hnew].
  destruct Hwf as [Hst [Hnd Hblank] Hq Hqr Har Hhr Hone Hds Hdj].
  split; simpl; [done| |done..]. split.
  - apply NoDup_app. split_and!; [done| |apply NoDup_singleton].
    intros x Hx. rewrite list_elem_of_singleton. by intros ->.
  - rewrite not_elem_of_app, list_elem_of_singleton. split; [done|].
    by intros ?.
Qed.

Lemma well_formed_removeJobTitle appState (job : string) :
  well_formed appState →
  well_formed (edited appState (removeJobTitle appState job)).
Proof.
  intros [Hst [Hnd Hblank] Hq Hqr Har Hhr Hone Hds Hdj].
  split; simpl; [done| |done..]. split.
  - by apply NoDup_filter.
  - rewrite list_elem_of_filter. tauto.
Qed.

Lemma well_formed_addStudent appState (num : option Z) :
  well_formed appState →
  well_formed (edited appState (addStudent appState num)).
Proof.
  intros Hwf. unfold addStudent. destruct num as [n|]; [|done].
  case_decide as Hok; [|by case_decide]. destruct Hok as [Hpos Hnew].
  destruct Hwf as [Hst Hjt Hq Hqr Har Hhr Hone Hds Hdj].
  assert (∀ s, s ∈ students appState
               → s ∈ sort_ascending (students appState ++ [n])) as Hkeep.
  { intros s Hs. rewrite sort_ascending_perm, elem_of_app. by left. }
  split; simpl.
  - by apply roster_ok_add.
  - done.
  - done.
  - by eauto.
  - by eauto.
  - by eauto.
  - done.
  - done.
  - done.
Qed.

Lemma well_formed_removeStudent appState (s : Z) :
  well_formed appState →
  well_formed (edited appState (removeStudent appState s)).
Proof.
  intros [Hst Hjt Hq Hqr Har Hhr Hone Hds Hdj].
  split; simpl.
  - by apply roster_ok_filter.
  - done.
  - by apply NoDup_filter.
  - intros x. rewrite !list_elem_of_filter. intros [? ?]. eauto.
  - intros x. rewrite lookup_delete, list_elem_of_filter.
    case_decide; [by intros [? ?]|]. intros Hx. split; [congruence|eauto].
  - intros x. rewrite lookup_delete, list_elem_of_filter.
    case_decide; [by intros [? ?]|]. intros Hx. split; [congruence|eauto].
  - intros s1 s2 j. rewrite !lookup_delete.
    repeat case_decide; try done. apply Hone.
  - done.
  - done.
Qed.

Lemma well_formed_saveDefaults appState (type : defaults_type) :
  well_formed appState → well_formed (saveDefaults appState type).1.
Proof.
  intros [Hst Hjt Hq Hqr Har Hhr Hone Hds Hdj].
  destruct type; split; simpl; done.
Qed.

Lemma well_formed_first_load appState g :
  well_formed appState →
  well_formed (load_snapshot appState (first_document appState g).1).
Proof.
  intros [Hst Hjt Hq Hqr Har Hhr Hone Hds Hdj]. unfold first_document.
  pose proof (roster_ok_or_fallback _ Hds) as Hnew.
  pose proof (shuffleArray_perm
                (or_fallback (userDefaultStudents appState) DEFAULT_STUDENTS) g)
    as Hperm.
  destruct (shuffleArray _ g) as [shuffled g'].
  simpl in *. split; simpl.
  - done.
  - by apply titles_ok_or_fallback.
  - rewrite Hperm. by apply roster_ok_NoDup.
  - intros s. by rewrite Hperm.
  - intros s. rewrite lookup_empty. by intros [? ?].
  - intros s. rewrite lookup_empty. by intros [? ?].
  - intros s1 s2 j H. by rewrite lookup_empty in H.
  - done.
  - done.
Qed.

End WellFormed.

(** Every handler keeps a well-formed state well formed: after any intent of
    the user, the roster of students is still ascending, without repetition
    and positive, the job titles are distinct and not empty, the cycle queue
    has no repetition and names students of the roster only, assignments and
    histories belong to students of the roster, no job is held twice, and
    the user's defaults are sound rosters. *)
Theorem handlers_keep_the_state_well_formed trim (i : intent) appState g :
  well_formed appState → well_formed (perform trim i appState g).1.
Proof.
  intros Hwf. destruct i; simpl.
  - by apply well_formed_generate.
  - by apply well_formed_clearCurrentAssignments.
  - by apply well_formed_resetAssignmentHistory.
  - pose proof (well_formed_resetAll appState g Hwf) as H.
    by destruct (resetAll appState g).
  - by apply well_formed_addJobTitle.
  - by apply well_formed_removeJobTitle.
  - by apply well_formed_addStudent.
  - by apply well_formed_removeStudent.
  - by apply well_formed_saveDefaults.
Qed.

Lemma handlers_keep_the_state_well_formed_witness :
  well_formed initial_appState
  ∧ well_formed (perform id (AddStudent (Some 40)) initial_appState halves).1.
Proof.
  split; [exact well_formed_initial|].
  exact (handlers_keep_the_state_well_formed id (AddStudent (Some 40))
           initial_appState halves well_formed_initial).
Defined.

Lemma reachable_well_formed trim appState :
  reachable trim appState → well_formed appState.
Proof.
  induction 1 as [|appState g _ IH|appState i g _ IH].
  - apply well_formed_initial.
  - by apply well_formed_first_load.
  - destruct i; simpl.
    + by apply well_formed_generate.
    + by apply well_formed_clearCurrentAssignments.
    + by apply well_formed_resetAssignmentHistory.
    + pose proof (well_formed_resetAll appState g IH) as H.
      by destruct (resetAll appState g).
    + by apply well_formed_addJobTitle.
    + by apply well_formed_removeJobTitle.
    + by apply well_formed_addStudent.
    + by apply well_formed_removeStudent.
    + by apply well_formed_saveDefaults.
Qed.

(** In a session that starts from the initial state, loads the first
    document and then follows the user, an assigned student is never left in
    the cycle queue: after every run the saved queue is the queue the loop
    started from without the students who got a job, in the same order, and
    neither roster has a repetition. *)
Theorem assigned_students_leave_the_queue trim appState now g st' :
  reachable trim appState →
  saved (generateWeeklyAssignments appState now g) = Some st' →
  (∀ s j, currentAssignments st' !! s = Some j →
          s ∉ remainingStudentsInCycle st')
  ∧ remainingStudentsInCycle st'
    = filter (λ s, currentAssignments st' !! s = None)
             (cycle_at_entry appState g)
  ∧ NoDup (students appState) ∧ NoDup (jobTitles appState).
Proof.
  intros Hreach Hsaved.
  destruct (reachable_well_formed _ _ Hreach)
    as [Hst [Hjt _] Hq Hqr _ _ _ _ _].
  pose proof (roster_ok_NoDup _ Hst) as Hnd.
  destruct (cycle_at_entry_ok appState g Hnd Hq Hqr) as [Hq0 _].
  destruct (saved_run _ _ _ _ Hsaved) as (_ & _ & Hrun).
  rewrite Hrun in Hsaved. simpl in Hsaved. simplify_eq/=.
  destruct (cycle_after_loop appState g) as (_ & _ & Hfilter).
  simpl in Hfilter. specialize (Hfilter Hq0).
  split_and!; [|done..].
  intros s j Hsj. rewrite Hfilter, list_elem_of_filter. intros [Hnone _].
  congruence.
Qed.

Lemma assigned_students_leave_the_queue_witness :
  reachable id initial_appState
  ∧ saved (generateWeeklyAssignments initial_appState "now" halves)
    = Some (state_after initial_appState
              (generateWeeklyAssignments initial_appState "now" halves))
  ∧ NoDup (students initial_appState) ∧ NoDup (jobTitles initial_appState).
Proof.
  assert (saved (generateWeeklyAssignments initial_appState "now" halves)
          = Some (state_after initial_appState
                    (generateWeeklyAssignments initial_appState "now" halves)))
    as Hsaved by reflexivity.
  split_and!; [apply reachable_initial|exact Hsaved|..];
    apply (assigned_students_leave_the_queue id initial_appState "now" halves
             _ (reachable_initial id) Hsaved).
Defined.

(** A student taken off the roster does not come back through a run: in the
    state a run saves after [removeStudent], the student has no assignment,
    no history and no place in the cycle queue.  A job title taken off the
    roster is given to nobody by the next run. *)
Theorem removed_entries_are_not_assigned appState now g :
  (∀ (s : Z) st',
     saved (generateWeeklyAssignments
              (edited appState (removeStudent appState s)) now g) = Some st' →
     currentAssignments st' !! s = None
     ∧ studentJobHistory st' !! s = None
     ∧ s ∉ remainingStudentsInCycle st')
  ∧ (∀ (job : string) st',
       saved (generateWeeklyAssignments
                (edited appState (removeJobTitle appState job)) now g)
       = Some st' →
       ∀ s, currentAssignments st' !! s ≠ Some job).
Proof.
  split.
  - intros s st' Hsaved.
    set (st1 := edited appState (removeStudent appState s)) in *.
    assert (s ∉ students st1) as Hgone.
    { simpl. rewrite list_elem_of_filter. tauto. }
    destruct (saved_run _ _ _ _ Hsaved) as (_ & _ & Hrun).
    rewrite Hrun in Hsaved. simpl in Hsaved. simplify_eq/=.
    assert (newCurrentAssignments (after_loop (prepare st1 g)) !! s = None)
      as Hnone.
    { apply eq_None_not_Some. intros Hs.
      by apply Hgone, (after_loop_in_roster st1 g). }
    split_and!; [done| |].
    + pose proof (history_after_loop st1 g s) as Hh. simpl in Hh.
      rewrite Hnone in Hh. rewrite Hh. apply lookup_delete_eq.
    + destruct (cycle_after_loop st1 g) as (Hsub & _ & _). simpl in Hsub.
      intros Hin. pose proof (elem_of_sublist _ _ _ Hin Hsub) as Hin0.
      rewrite cycle_at_entry_eq in Hin0. case_decide.
      * by rewrite shuffleArray_elem_of in Hin0.
      * simpl in Hin0. rewrite list_elem_of_filter in Hin0. tauto.
  - intros job st' Hsaved s Hs.
    set (st1 := edited appState (removeJobTitle appState job)) in *.
    destruct (saved_run _ _ _ _ Hsaved) as (_ & _ & Hrun).
    rewrite Hrun in Hsaved. simpl in Hsaved. simplify_eq/=.
    destruct (prepare_shape st1 g) as (said & _ & _ & Hjobs & _).
    pose proof (week_ok_after_loop st1 g) as Hok.
    apply (ok_jobs _ _ _ _ _ Hok) in Hs. rewrite Hjobs in Hs.
    simpl in Hs. rewrite list_elem_of_filter in Hs. tauto.
Qed.

Lemma removed_entries_are_not_assigned_witness :
  saved (generateWeeklyAssignments
           (edited three_students (removeStudent three_students 1))
           "now" halves)
  = Some (state_after (edited three_students (removeStudent three_students 1))
            (generateWeeklyAssignments
               (edited three_students (removeStudent three_students 1))
               "now" halves))
  ∧ currentAssignments
      (state_after (edited three_students (removeStudent three_students 1))
         (generateWeeklyAssignments
            (edited three_students (removeStudent three_students 1))
            "now" halves)) !! 1 = None.
Proof.
  assert (saved (generateWeeklyAssignments
                   (edited three_students (removeStudent three_students 1))
                   "now" halves)
          = Some (state_after
                    (edited three_students (removeStudent three_students 1))
                    (generateWeeklyAssignments
                       (edited three_students (removeStudent three_students 1))
                       "now" halves))) as Hsaved by reflexivity.
  split; [exact Hsaved|].
  exact (proj1 (proj1 (removed_entries_are_not_assigned three_students
                         "now" halves) 1 _ Hsaved)).
Defined.

(** ** Resetting to the defaults *)

(** [resetAll] always saves: the rosters are the user's defaults, each
    replaced by the built-in roster when the user saved none; the cycle queue
    is a permutation of the new roster of students; assignments, history and
    date are cleared; the defaults themselves stay.  After the current
    rosters have been saved as defaults, a reset brings them back, unless
    the saved roster was empty, which brings the built-in one. *)
Theorem resetAll_restores_the_defaults appState g :
  (∃ st', edit_saved (resetAll appState g).1 = Some st'
     ∧ students st'
       = (if decide (userDefaultStudents appState = [])
          then DEFAULT_STUDENTS else userDefaultStudents appState)
     ∧ jobTitles st'
       = (if decide (userDefaultJobTitles appState = [])
          then DEFAULT_JOB_TITLES else userDefaultJobTitles appState)
     ∧ remainingStudentsInCycle st' ≡ₚ students st'
     ∧ currentAssignments st' = ∅
     ∧ studentJobHistory st' = ∅
     ∧ lastAssignmentDate st' = None
     ∧ userDefaultStudents st' = userDefaultStudents appState
     ∧ userDefaultJobTitles st' = userDefaultJobTitles appState)
  ∧ students
      (edited (saveDefaults appState DefaultStudents).1
         (resetAll (saveDefaults appState DefaultStudents).1 g).1)
    = (if decide (students appState = [])
       then DEFAULT_STUDENTS else students appState)
  ∧ jobTitles
      (edited (saveDefaults appState DefaultJobs).1
         (resetAll (saveDefaults appState DefaultJobs).1 g).1)
    = (if decide (jobTitles appState = [])
       then DEFAULT_JOB_TITLES else jobTitles appState).
Proof.
  assert (∀ A (xs fallback : list A),
            or_fallback xs fallback
            = if decide (xs = []) then fallback else xs) as Hfb.
  { intros A xs fallback. unfold or_fallback. destruct xs; [done|].
    rewrite decide_True by (simpl; lia). by rewrite decide_False. }
  assert (∀ st,
            students (edited st (resetAll st g).1)
            = or_fallback (userDefaultStudents st) DEFAULT_STUDENTS
            ∧ jobTitles (edited st (resetAll st g).1)
              = or_fallback (userDefaultJobTitles st) DEFAULT_JOB_TITLES)
    as Hreset.
  { intros st. unfold resetAll. by destruct (shuffleArray _ g). }
  split_and!.
  - unfold resetAll.
    pose proof (shuffleArray_perm
                  (or_fallback (userDefaultStudents appState) DEFAULT_STUDENTS)
                  g) as Hperm.
    destruct (shuffleArray _ g) as [reshuffled g']. simpl in *.
    eexists. split; [done|]. simpl. rewrite <- !Hfb. by split_and!.
  - by rewrite (proj1 (Hreset _)), Hfb.
  - by rewrite (proj2 (Hreset _)), Hfb.
Qed.

(** ** What is saved is what is loaded *)

(** Loading the document that [saveState] wrote gives the saved state back
    whatever state was held before, empty rosters included: the defaults of
    the loader replace missing fields only.  A well-formed state is still
    well formed after a reload. *)
Theorem save_then_load_is_identity prevState newState :
  load_snapshot prevState (document_of newState) = newState
  ∧ (well_formed newState →
     well_formed (load_snapshot prevState (document_of newState))).
Proof.
  assert (load_snapshot prevState (document_of newState) = newState) as Heq.
  { by destruct newState. }
  split; [done|]. by rewrite Heq.
Qed.

(** ** The rows on display *)

Section Display.

#[local] Instance by_studentNum_trans : Transitive by_studentNum.
Proof. intros a b c. unfold by_studentNum. lia. Qed.

#[local] Instance by_studentNum_total : Total by_studentNum.
Proof. intros a b. unfold by_studentNum. lia. Qed.

Lemma keys_ascending (rows : list (Z * string)) :
  StronglySorted by_studentNum rows → StronglySorted Z.le (rows.*1).
Proof.
  induction 1 as [|row rows Hs IH Hrow]; [constructor|].
  simpl. constructor; [done|].
  rewrite Forall_fmap. by eapply Forall_impl.
Qed.

(** As long as [parseInt] reads every student number back from its key, the
    rows on display are exactly the current assignments, one row per
    assigned student, in ascending order of student number; and no other
    arrangement of the assignments is in that order, so the rows do not
    depend on how the engine sorts. *)
Theorem assignmentsArray_is_the_sorted_map (parseInt_of_key : Z → Z)
    (assignments : gmap Z string) :
  (∀ s, is_Some (assignments !! s) → parseInt_of_key s = s) →
  (∀ s j, (s, j) ∈ assignmentsArray parseInt_of_key assignments
          ↔ assignments !! s = Some j)
  ∧ StronglySorted Z.lt ((assignmentsArray parseInt_of_key assignments).*1)
  ∧ length (assignmentsArray parseInt_of_key assignments) = size assignments
  ∧ (∀ rows, rows ≡ₚ map_to_list assignments →
             StronglySorted by_studentNum rows →
             rows = assignmentsArray parseInt_of_key assignments).
Proof.
  intros Hkeys.
  assert ((λ entry : Z * string, (parseInt_of_key entry.1, entry.2))
            <$> map_to_list assignments = map_to_list assignments) as Hread.
  { rewrite <- (list_fmap_id (map_to_list assignments)) at 2.
    apply list_fmap_ext. intros i [s j] Hi. simpl.
    rewrite Hkeys; [done|].
    apply list_elem_of_lookup_2, elem_of_map_to_list in Hi. eauto. }
  pose proof (merge_sort_Permutation by_studentNum (map_to_list assignments))
    as Hperm.
  pose proof (StronglySorted_merge_sort by_studentNum
                (map_to_list assignments)) as Hsorted.
  unfold assignmentsArray. rewrite Hread.
  split_and!.
  - intros s j. by rewrite Hperm, elem_of_map_to_list.
  - apply strictly_ascending; [by apply keys_ascending|].
    rewrite Hperm. apply NoDup_fst_map_to_list.
  - by rewrite Hperm, length_map_to_list.
  - intros rows Hrows Hrs.
    apply (StronglySorted_unique_strong by_studentNum); [|done..|].
    + intros [s1 j1] [s2 j2]. rewrite Hrows, Hperm, !elem_of_map_to_list.
      unfold by_studentNum. simpl. intros H1 H2 ? ?.
      assert (s1 = s2) as -> by lia. congruence.
    + by rewrite Hrows, Hperm.
Qed.

Lemma assignmentsArray_is_the_sorted_map_witness :
  (∀ s, is_Some (({[ 3 := "B"; 1 := "A" ]} : gmap Z string) !! s) →
        parseInt_of_small_key s = s)
  ∧ (∀ s j, (s, j) ∈ assignmentsArray parseInt_of_small_key
                       {[ 3 := "B"; 1 := "A" ]}
            ↔ ({[ 3 := "B"; 1 := "A" ]} : gmap Z string) !! s = Some j)
  ∧ StronglySorted Z.lt
      ((assignmentsArray parseInt_of_small_key {[ 3 := "B"; 1 := "A" ]}).*1)
  ∧ length (assignmentsArray parseInt_of_small_key {[ 3 := "B"; 1 := "A" ]})
    = size ({[ 3 := "B"; 1 := "A" ]} : gmap Z string)
  ∧ (∀ rows,
       rows ≡ₚ map_to_list ({[ 3 := "B"; 1 := "A" ]} : gmap Z string) →
       StronglySorted by_studentNum rows →
       rows = assignmentsArray parseInt_of_small_key {[ 3 := "B"; 1 := "A" ]}).
Proof.
  assert (∀ s, is_Some (({[ 3 := "B"; 1 := "A" ]} : gmap Z string) !! s) →
               parseInt_of_small_key s = s) as Hkeys.
  { intros s [j Hs].
    destruct (decide (s = 3)) as [->|H3]; [reflexivity|].
    destruct (decide (s = 1)) as [->|H1]; [reflexivity|].
    rewrite lookup_insert_ne, lookup_singleton_ne in Hs by done.
    discriminate Hs. }
  split; [exact Hkeys|].
  exact (assignmentsArray_is_the_sorted_map parseInt_of_small_key
           {[ 3 := "B"; 1 := "A" ]} Hkeys).
Defined.

Example rows_of_two_assignments :
  assignmentsArray parseInt_of_small_key {[ 3 := "B"; 1 := "A" ]}
  = [(1, "A"); (3, "B")].
Proof. by vm_compute. Qed.

(** Past 10^21 the rows no longer show the assignments: the student whose
    number is 10^21 is shown as student 1. *)
Example rows_of_a_large_number :
  assignmentsArray parseInt_of_small_key {[ 10 ^ 21 := "A" ]} = [(1, "A")].
Proof. by vm_compute. Qed.

(** Dropping a dragged row moves that row and nothing else: when the
    dragged index is a row of the list, the list after the drop is a
    permutation of the list before, of the same length; the dragged row
    sits at the index it was dropped on, or last when that index is beyond
    the end; and the other rows keep their order.  With either index unset
    the list is left as it is. *)
Theorem drag_moves_one_row {A} (rows : list (option A)) (from to : nat) :
  (from < length rows)%nat →
  let landed := (to `min` (length rows - 1))%nat in
  handleDragEnd rows (Some from) (Some to) ≡ₚ rows
  ∧ length (handleDragEnd rows (Some from) (Some to)) = length rows
  ∧ handleDragEnd rows (Some from) (Some to) !! landed = rows !! from
  ∧ delete landed (handleDragEnd rows (Some from) (Some to)) = delete from rows
  ∧ handleDragEnd rows None (Some to) = rows
  ∧ handleDragEnd rows (Some from) None = rows.
Proof.
  intros Hfrom. simpl.
  destruct (lookup_lt_is_Some_2 rows from Hfrom) as [row Hrow].
  unfold handleDragEnd, splice_in. rewrite Hrow. simpl.
  assert (length (take to (delete from rows))
          = (to `min` (length rows - 1))%nat) as Hlen.
  { rewrite length_take, length_delete by eauto. done. }
  split_and!; [| | | |done..].
  - rewrite <- Permutation_middle, take_drop.
    symmetry. by apply delete_Permutation.
  - rewrite length_app. simpl. rewrite length_take, length_drop.
    rewrite length_delete by eauto. lia.
  - rewrite <- Hlen. by rewrite list_lookup_middle.
  - rewrite <- Hlen. by rewrite delete_middle, take_drop.
Qed.

Lemma drag_moves_one_row_witness :
  (0 < length [Some "a"; Some "b"; Some "c"])%nat
  ∧ handleDragEnd [Some "a"; Some "b"; Some "c"] (Some 0%nat) (Some 2%nat)
    ≡ₚ [Some "a"; Some "b"; Some "c"]
  ∧ handleDragEnd [Some "a"; Some "b"; Some "c"] (Some 0%nat) (Some 2%nat)
      !! 2%nat = Some (Some "a").
Proof.
  assert (0 < length [Some "a"; Some "b"; Some "c"])%nat as Hfrom.
  { simpl. lia. }
  split_and!; [exact Hfrom|..];
    apply (drag_moves_one_row [Some "a"; Some "b"; Some "c"] 0 2 Hfrom).
Defined.

Example drag_first_to_last :
  handleDragEnd [Some "a"; Some "b"; Some "c"] (Some 0%nat) (Some 2%nat)
  = [Some "b"; Some "c"; Some "a"].
Proof. reflexivity. Qed.

End Display.

(** ** Every order can come out of the shuffle *)

Section ShuffleReach.
Context {A : Type}.
Implicit Types (array target : list A).

Lemma answer_for_picks (randomIndex decremented : nat) :
  (randomIndex ≤ decremented)%nat →
  Random.floor_mul (answer_for randomIndex decremented) (S decremented)
  = randomIndex.
Proof.
  intros Hle. unfold Random.floor_mul, answer_for. simpl.
  replace (randomIndex + (decremented - randomIndex) + 1)%nat
    with (S decremented) by lia.
  apply Nat.div_mul. lia.
Qed.

Lemma swap_in_range array (i j : nat) (at_i at_j : A) :
  array !! i = Some at_i → array !! j = Some at_j →
  swap array i j = <[j := at_i]> (<[i := at_j]> array).
Proof. intros Hi Hj. unfold swap. by rewrite Hj, Hi. Qed.

Lemma shuffle_loop_reaches (n : nat) array target :
  length array = length target →
  (n ≤ length array)%nat →
  take n target ≡ₚ take n array →
  drop n target = drop n array →
  ∃ g, (shuffle_loop n array g).1 = target.
Proof.
  revert array. induction n as [|m IH]; intros array Hlen Hn Htake Hdrop.
  { exists (Random.constant (answer_for 0 0)). simpl. by rewrite !drop_0 in Hdrop. }
  destruct (lookup_lt_is_Some_2 target m) as [x Hx]; [lia|].
  destruct (lookup_lt_is_Some_2 array m) as [y Hy]; [lia|].
  assert (∃ ri, array !! ri = Some x ∧ (ri < S m)%nat) as (ri & Hri & Hlt).
  { apply elem_of_take. rewrite <- Htake. apply elem_of_take. eauto. }
  set (array' := swap array m ri).
  assert (array' = <[ri := y]> (<[m := x]> array)) as Hswap.
  { by apply swap_in_range. }
  assert (array' !! m = Some x) as Hm.
  { rewrite Hswap. destruct (decide (ri = m)) as [->|Hne].
    - rewrite list_lookup_insert_eq by (rewrite length_insert; lia).
      congruence.
    - rewrite list_lookup_insert_ne by done.
      apply list_lookup_insert_eq. lia. }
  assert (drop (S m) array' = drop (S m) array) as Hrest.
  { rewrite Hswap. by rewrite !drop_insert_lt by lia. }
  assert (take (S m) array' ≡ₚ take (S m) array) as Hfront.
  { apply (Permutation_app_inv_r (drop (S m) array)).
    rewrite <- Hrest at 1. rewrite !take_drop. apply swap_perm. }
  destruct (IH array') as [g' Hg'].
  - unfold array'. by rewrite swap_length.
  - unfold array'. rewrite swap_length. lia.
  - apply (Permutation_app_inv_r [x]).
    rewrite <- (take_S_r target m x Hx), <- (take_S_r array' m x Hm).
    by rewrite Htake, Hfront.
  - rewrite (drop_S target x m Hx), (drop_S array' x m Hm).
    by rewrite Hrest, Hdrop.
  - exists (λ k, match k with O => answer_for ri m | S k' => g' k' end).
    simpl. rewrite answer_for_picks by lia. exact Hg'.
Qed.

End ShuffleReach.

(** [shuffleArray] can return every arrangement of its argument: for each
    permutation of the array there are answers of [Math.random] that make
    the shuffle return it.  No order of the students or of the job titles is
    ruled out. *)
Theorem shuffle_reaches_every_order {A} (array target : list A) :
  target ≡ₚ array → ∃ g, (shuffleArray array g).1 = target.
Proof.
  intros Hperm. unfold shuffleArray.
  pose proof (Permutation_length Hperm) as Hlen.
  apply shuffle_loop_reaches; [done|done| |].
  - by rewrite !take_ge by lia.
  - by rewrite !drop_ge by lia.
Qed.

Lemma shuffle_reaches_every_order_witness :
  [3; 1; 2] ≡ₚ [1; 2; 3] ∧ ∃ g, (shuffleArray [1; 2; 3] g).1 = [3; 1; 2].
Proof.
  assert ([3; 1; 2] ≡ₚ [1; 2; 3]) as Hperm.
  { apply (bool_decide_unpack _). vm_compute. exact I. }
  split; [exact Hperm|].
  exact (shuffle_reaches_every_order [1; 2; 3] [3; 1; 2] Hperm).
Defined.
